(** * Blackjack round logic of [script.js]

    A shallow embedding of the game logic of the page script: deck
    management ([createDeck], [shuffleDeck], [dealCard]), hand scoring
    ([calculateScore]), the table view ([renderTable]) and the turn
    handlers ([startNewGame], [playerHit], [playerStand],
    [handleRoundEnd]), followed by the properties proved about them.

    The module-level variables of the script are the fields of [State];
    the handlers are computations in a state-and-exception monad [M].
    The [async] handler [playerStand] is modelled twice: run to its end
    with nothing else happening during its waits, and cut at its
    [await]s, with the clicks and timers of the page as events. *)

From stdpp Require Import base list strings gmap.
From Stdlib Require Import ZArith Lia.

Open Scope string_scope.
Open Scope list_scope.
Open Scope nat_scope.

(** ** JavaScript numbers that occur in the script

    Every number the game logic touches is an integer or [NaN]
    ([parseInt] of a face rank). *)

Module JS.

Local Open Scope Z_scope.

Inductive num : Type :=
| Int (z : Z)
| NaN.

Definition add (a b : num) : num :=
  match a, b with
  | Int x, Int y => Int (x + y)
  | _, _ => NaN
  end.

Definition sub (a b : num) : num :=
  match a, b with
  | Int x, Int y => Int (x - y)
  | _, _ => NaN
  end.

(** [a > b]; a comparison with [NaN] is false. *)
Definition gt (a b : num) : bool :=
  match a, b with
  | Int x, Int y => y <? x
  | _, _ => false
  end.

(** [a < b]. *)
Definition lt (a b : num) : bool :=
  match a, b with
  | Int x, Int y => x <? y
  | _, _ => false
  end.

(** [a === b]; [NaN] is not equal to itself. *)
Definition strictEq (a b : num) : bool :=
  match a, b with
  | Int x, Int y => x =? y
  | _, _ => false
  end.

Definition digit (a : Ascii.ascii) : option Z :=
  let n := Z.of_nat (Ascii.nat_of_ascii a) in
  if (48 <=? n) && (n <=? 57) then Some (n - 48) else None.

Fixpoint parse_digits (acc : Z) (s : string) : Z :=
  match s with
  | String a s' =>
      match digit a with
      | Some d => parse_digits (10 * acc + d) s'
      | None => acc
      end
  | EmptyString => acc
  end.

(** [parseInt(s)] for a string without leading blanks or sign: the
    longest prefix of decimal digits, [NaN] when there is none. *)
Definition parseInt (s : string) : num :=
  match s with
  | String a s' =>
      match digit a with
      | Some d => Int (parse_digits d s')
      | None => NaN
      end
  | EmptyString => NaN
  end.

(** [arr.includes(x)] on an array of strings. *)
Definition includes (arr : list string) (x : string) : bool :=
  existsb (String.eqb x) arr.

End JS.

Import JS.

(** ** Cards and the deck *)

Definition suits : list string := ["♣"; "♦"; "♥"; "♠"].
Definition ranks : list string :=
  ["2"; "3"; "4"; "5"; "6"; "7"; "8"; "9"; "10"; "J"; "Q"; "K"; "A"].

(** The object literals [suitsMap] and [ranksMap], as the maps of their
    own entries.  The script reads them in [createCardEl] only, where
    the value read is multiplied by a number: at an own key this gives
    the sprite position, and at any other key the value read is
    [undefined] or a member inherited from [Object.prototype], and the
    product is [NaN] in both cases.  A lookup [None] stands for such a
    read. *)
Definition suitsMap : gmap string nat :=
  <["♣" := 0]> (<["♦" := 1]> (<["♥" := 2]> (<["♠" := 3]> ∅))).

Definition ranksMap : gmap string nat :=
  list_to_map
    [("2", 0); ("3", 1); ("4", 2); ("5", 3); ("6", 4);
     ("7", 5); ("8", 6); ("9", 7); ("10", 8); ("J", 9);
     ("Q", 10); ("K", 11); ("A", 12)].

(** The object literal [{ rank: r, suit: s, value: value }]. *)
Record Card : Type := mkCard {
  rank : string;
  suit : string;
  value : num
}.

Global Instance num_eq_dec : EqDecision num.
Proof. solve_decision. Defined.

Global Instance Card_eq_dec : EqDecision Card.
Proof. solve_decision. Defined.

(** The body of the inner loop of [createDeck]: the value of rank [r]. *)
Definition rankValue (r : string) : num :=
  let value := parseInt r in
  let value := if includes ["J"; "Q"; "K"] r then Int 10%Z else value in
  let value := if String.eqb r "A" then Int 11%Z else value in
  value.

(** The cards [createDeck] pushes, in order: for each suit, for each rank. *)
Definition createDeck_cards : list Card :=
  foldl (fun d s =>
           foldl (fun d r => d ++ [mkCard r s (rankValue r)]) d ranks)
        [] suits.

(** ** Scoring *)

(** The [while (score > 21 && aces > 0)] loop; it runs at most [aces] times. *)
Fixpoint softenAces (score : num) (aces : nat) : num :=
  match aces with
  | O => score
  | S aces' =>
      if gt score (Int 21%Z) then softenAces (sub score (Int 10%Z)) aces'
      else score
  end.

(** The [for (let c of hand)] loop, on the pair [(score, aces)]. *)
Definition tally (hand : list Card) : num * nat :=
  foldl (fun '(score, aces) c =>
           (add score (value c),
            if String.eqb (rank c) "A" then S aces else aces))
        (Int 0%Z, O) hand.

Definition calculateScore (hand : list Card) : num :=
  let '(score, aces) := tally hand in
  softenAces score aces.

(** ** The page elements the script writes to ([els]) *)

(** A card element made by [createCardEl]: the card back (background
    position [0% 100%], id [dealer-hidden-card]) or a card face, with
    background position [col * (100 / 12)]% [row * (100 / 4)]%: the
    sprite cell at column [col] and row [row].  [None] for a position
    that is [NaN], which is what the script computes when the rank or
    the suit is not an own key of its map. *)
Inductive CardEl : Type :=
| cardBack
| cardFace (col row : option nat).

Definition createCardEl (card : Card) (isHidden : bool) : CardEl :=
  if isHidden then cardBack
  else
    let col := ranksMap !! rank card in
    let row := suitsMap !! suit card in
    cardFace col row.

(** The children, texts, classes and [disabled] flags of the elements
    in [els].  [playerScore] holds the number shown after [Player: ];
    [dealerScore] is [None] when the text is [Dealer: ?]. *)
Record Els : Type := mkEls {
  els_playerHand : list CardEl;
  els_dealerHand : list CardEl;
  els_playerScore : num;
  els_dealerScore : option num;
  els_msgOverlay_show : bool;
  els_msgText : string;
  els_msgText_color : string;
  els_btnHit_disabled : bool;
  els_btnStand_disabled : bool;
  els_btnNew_disabled : bool;
  els_winCount : nat;
  els_lossCount : nat;
  els_bustCount : nat
}.

(** ** Module-level state

    [Math_random] lists the outcomes of the calls to [Math.random] still
    to come: outcome [k] is a natural number [r], and
    [Math.floor(Math.random() * n)] is read as [r mod n], so that every
    index in [0 .. n-1] can occur and no other.  [sounds] logs the
    arguments of the calls to [playSound]. *)
Record State : Type := mkState {
  deck : list Card;
  playerHand : list Card;
  dealerHand : list Card;
  gameOver : bool;
  deckIndex : nat;
  wins : nat;
  losses : nat;
  busts : nat;
  els : Els;
  Math_random : nat -> nat;
  sounds : list string
}.

Definition set_deck (f : list Card -> list Card) (st : State) : State :=
  mkState (f (deck st)) (playerHand st) (dealerHand st) (gameOver st)
    (deckIndex st) (wins st) (losses st) (busts st) (els st)
    (Math_random st) (sounds st).

Definition set_playerHand (f : list Card -> list Card) (st : State) : State :=
  mkState (deck st) (f (playerHand st)) (dealerHand st) (gameOver st)
    (deckIndex st) (wins st) (losses st) (busts st) (els st)
    (Math_random st) (sounds st).

Definition set_dealerHand (f : list Card -> list Card) (st : State) : State :=
  mkState (deck st) (playerHand st) (f (dealerHand st)) (gameOver st)
    (deckIndex st) (wins st) (losses st) (busts st) (els st)
    (Math_random st) (sounds st).

Definition set_gameOver (b : bool) (st : State) : State :=
  mkState (deck st) (playerHand st) (dealerHand st) b
    (deckIndex st) (wins st) (losses st) (busts st) (els st)
    (Math_random st) (sounds st).

Definition set_deckIndex (f : nat -> nat) (st : State) : State :=
  mkState (deck st) (playerHand st) (dealerHand st) (gameOver st)
    (f (deckIndex st)) (wins st) (losses st) (busts st) (els st)
    (Math_random st) (sounds st).

Definition set_wins (f : nat -> nat) (st : State) : State :=
  mkState (deck st) (playerHand st) (dealerHand st) (gameOver st)
    (deckIndex st) (f (wins st)) (losses st) (busts st) (els st)
    (Math_random st) (sounds st).

Definition set_losses (f : nat -> nat) (st : State) : State :=
  mkState (deck st) (playerHand st) (dealerHand st) (gameOver st)
    (deckIndex st) (wins st) (f (losses st)) (busts st) (els st)
    (Math_random st) (sounds st).

Definition set_busts (f : nat -> nat) (st : State) : State :=
  mkState (deck st) (playerHand st) (dealerHand st) (gameOver st)
    (deckIndex st) (wins st) (losses st) (f (busts st)) (els st)
    (Math_random st) (sounds st).

Definition set_els (f : Els -> Els) (st : State) : State :=
  mkState (deck st) (playerHand st) (dealerHand st) (gameOver st)
    (deckIndex st) (wins st) (losses st) (busts st) (f (els st))
    (Math_random st) (sounds st).

Definition set_Math_random (f : (nat -> nat) -> nat -> nat) (st : State)
  : State :=
  mkState (deck st) (playerHand st) (dealerHand st) (gameOver st)
    (deckIndex st) (wins st) (losses st) (busts st) (els st)
    (f (Math_random st)) (sounds st).

Definition set_sounds (f : list string -> list string) (st : State) : State :=
  mkState (deck st) (playerHand st) (dealerHand st) (gameOver st)
    (deckIndex st) (wins st) (losses st) (busts st) (els st)
    (Math_random st) (f (sounds st)).

(** ** The monad of the handlers

    A handler runs on the state and finishes ([Ok]), dies of an uncaught
    [TypeError] (a property read on [undefined]), or is cut off by the
    iteration bound of a loop that has no structural bound ([OutOfFuel]). *)
Inductive result (A : Type) : Type :=
| Ok (a : A) (st : State)
| TypeError
| OutOfFuel.

Arguments Ok {A} a st.
Arguments TypeError {A}.
Arguments OutOfFuel {A}.

Definition M (A : Type) : Type := State -> result A.

Global Instance M_ret : MRet M := fun A a st => Ok a st.

Global Instance M_bind : MBind M := fun A B f m st =>
  match m st with
  | Ok a st' => f a st'
  | TypeError => TypeError
  | OutOfFuel => OutOfFuel
  end.

Definition get : M State := fun st => Ok st st.
Definition modify (f : State -> State) : M unit := fun st => Ok tt (f st).
Definition throw {A} : M A := fun _ => TypeError.
Definition outOfFuel {A} : M A := fun _ => OutOfFuel.

(** ** Sound *)

(** [playSound(type)] only drives the audio context; the model logs the
    requested effect. *)
Definition playSound (type : string) : M unit :=
  modify (set_sounds (fun log => log ++ [type])).

(** ** Deck management *)

Definition createDeck : M unit :=
  modify (set_deck (fun _ => createDeck_cards)).

(** [Math.floor(Math.random() * n)]: consumes one outcome. *)
Definition floorRandom (n : nat) : M nat := fun st =>
  Ok (Math_random st 0 `mod` n)
     (set_Math_random (fun f k => f (S k)) st).

(** [[deck[i], deck[j]] = [deck[j], deck[i]]]: both reads, then the write
    to [deck[i]], then the write to [deck[j]].  In [shuffleDeck] both
    indices are below [deck.length] (see [swap_in_range]), so neither
    read is [undefined] and neither write extends the array. *)
Definition swap (i j : nat) (d : list Card) : list Card :=
  match d !! i, d !! j with
  | Some a, Some b => <[j := a]> (<[i := b]> d)
  | _, _ => d
  end.

(** The [for (let i = deck.length - 1; i > 0; i--)] loop from index [i]. *)
Fixpoint shuffleLoop (i : nat) : M unit :=
  match i with
  | O => mret tt
  | S i' =>
      j ← floorRandom (i + 1);
      modify (set_deck (swap i j));;
      shuffleLoop i'
  end.

Definition shuffleDeck : M unit :=
  st ← get;
  shuffleLoop (length (deck st) - 1);;
  modify (set_deckIndex (fun _ => 0)).

(** [return deck[deckIndex++]].  On an empty deck the read is
    [undefined]; each caller then reads a property of it before it
    returns ([c.value] in [calculateScore], [card.rank] in
    [createCardEl]), so the [TypeError] is raised here. *)
Definition dealCard : M Card :=
  st ← get;
  (if length (deck st) <=? deckIndex st then shuffleDeck else mret tt);;
  st ← get;
  modify (set_deckIndex S);;
  match deck st !! deckIndex st with
  | Some c => mret c
  | None => throw
  end.

(** ** The table view *)

Definition renderTable (showDealerHidden : bool) : M unit :=
  modify (fun st =>
    set_els (fun e =>
      mkEls
        (map (fun c => createCardEl c false) (playerHand st))
        (imap (fun index c =>
                 if (index =? 0) && negb showDealerHidden
                 then createCardEl c true
                 else createCardEl c false)
              (dealerHand st))
        (calculateScore (playerHand st))
        (if showDealerHidden then Some (calculateScore (dealerHand st))
         else None)
        (els_msgOverlay_show e) (els_msgText e) (els_msgText_color e)
        (els_btnHit_disabled e) (els_btnStand_disabled e)
        (els_btnNew_disabled e)
        (els_winCount e) (els_lossCount e) (els_bustCount e)) st).

Definition showMessage (text color : string) : M unit :=
  modify (set_els (fun e =>
    mkEls (els_playerHand e) (els_dealerHand e) (els_playerScore e)
      (els_dealerScore e)
      true text color
      (els_btnHit_disabled e) (els_btnStand_disabled e)
      (els_btnNew_disabled e)
      (els_winCount e) (els_lossCount e) (els_bustCount e))).

Definition hideMessage : M unit :=
  modify (set_els (fun e =>
    mkEls (els_playerHand e) (els_dealerHand e) (els_playerScore e)
      (els_dealerScore e)
      false (els_msgText e) (els_msgText_color e)
      (els_btnHit_disabled e) (els_btnStand_disabled e)
      (els_btnNew_disabled e)
      (els_winCount e) (els_lossCount e) (els_bustCount e))).

(** The three assignments to [els.btnHit.disabled], [els.btnStand.disabled]
    and [els.btnNew.disabled]. *)
Definition setButtons (hit stand new : bool) : M unit :=
  modify (set_els (fun e =>
    mkEls (els_playerHand e) (els_dealerHand e) (els_playerScore e)
      (els_dealerScore e)
      (els_msgOverlay_show e) (els_msgText e) (els_msgText_color e)
      hit stand new
      (els_winCount e) (els_lossCount e) (els_bustCount e))).

Definition endGame : M unit :=
  modify (set_gameOver true);;
  setButtons true true false.

Definition updateStats : M unit :=
  modify (fun st =>
    set_els (fun e =>
      mkEls (els_playerHand e) (els_dealerHand e) (els_playerScore e)
        (els_dealerScore e)
        (els_msgOverlay_show e) (els_msgText e) (els_msgText_color e)
        (els_btnHit_disabled e) (els_btnStand_disabled e)
        (els_btnNew_disabled e)
        (wins st) (losses st) (busts st)) st).

(** ** Turn handlers *)

Definition handleRoundEnd : M unit :=
  st ← get;
  let pScore := calculateScore (playerHand st) in
  let dScore := calculateScore (dealerHand st) in
  renderTable true;;
  (if gt pScore (Int 21%Z) then
     showMessage "BUST! You lose." "#ff4444";;
     modify (set_busts S);;
     playSound "lose"
   else if gt dScore (Int 21%Z) then
     showMessage "Dealer BUSTS! You Win!" "#4CAF50";;
     modify (set_wins S);;
     playSound "win"
   else if gt pScore dScore then
     showMessage "You Win!" "#4CAF50";;
     modify (set_wins S);;
     playSound "win"
   else if gt dScore pScore then
     showMessage "Dealer Wins." "#ff4444";;
     modify (set_losses S);;
     playSound "lose"
   else
     showMessage "Push (Tie)." "#fff";;
     playSound "chip");;
  updateStats;;
  endGame.

Definition startNewGame : M unit :=
  playSound "chip";;
  hideMessage;;
  modify (set_gameOver false);;
  modify (set_playerHand (fun _ => []));;
  modify (set_dealerHand (fun _ => []));;
  setButtons false false true;;
  st ← get;
  (if length (deck st) =? 0 then createDeck;; shuffleDeck else mret tt);;
  c ← dealCard; modify (set_playerHand (fun h => h ++ [c]));;
  c ← dealCard; modify (set_dealerHand (fun h => h ++ [c]));;
  c ← dealCard; modify (set_playerHand (fun h => h ++ [c]));;
  c ← dealCard; modify (set_dealerHand (fun h => h ++ [c]));;
  playSound "card";;
  renderTable false;;
  st ← get;
  let pScore := calculateScore (playerHand st) in
  if strictEq pScore (Int 21%Z) then handleRoundEnd else mret tt.

Definition playerHit : M unit :=
  st ← get;
  if gameOver st then mret tt
  else
    playSound "card";;
    c ← dealCard; modify (set_playerHand (fun h => h ++ [c]));;
    renderTable false;;
    st ← get;
    if gt (calculateScore (playerHand st)) (Int 21%Z) then
      renderTable true;;
      showMessage "BUST! You lose." "#ff4444";;
      modify (set_busts S);;
      playSound "lose";;
      updateStats;;
      endGame
    else mret tt.

(** One pass through the body of the dealer's [while] loop; the
    [await] on the 600 ms timer only delays it.  Returns the new
    [dScore]. *)
Definition dealerDraw : M num :=
  playSound "card";;
  c ← dealCard; modify (set_dealerHand (fun h => h ++ [c]));;
  st ← get;
  let dScore := calculateScore (dealerHand st) in
  renderTable true;;
  mret dScore.

(** [while (dScore < 17) { ... }], cut off after [fuel] passes. *)
Fixpoint dealerLoop (fuel : nat) (dScore : num) : M unit :=
  if lt dScore (Int 17%Z) then
    match fuel with
    | O => outOfFuel
    | S fuel' => dScore' ← dealerDraw; dealerLoop fuel' dScore'
    end
  else mret tt.

(** [playerStand] when nothing else happens on the page during its
    waits: each [await] only delays the next pass.  What the page does
    when a button is clicked during a wait is modelled by [onEvent]
    below, where a call of [playerStand] is cut at its [await]s. *)
Definition playerStand (fuel : nat) : M unit :=
  st ← get;
  if gameOver st then mret tt
  else
    renderTable true;;
    st ← get;
    let dScore := calculateScore (dealerHand st) in
    dealerLoop fuel dScore;;
    handleRoundEnd.

(** The initial values of the variables.  The page that gives the
    elements their first contents is not part of the script, so those
    contents [e] are a parameter, as is the randomness [rnd]. *)
Definition emptyState (e : Els) (rnd : nat -> nat) : State :=
  mkState [] [] [] false 0 0 0 0 e rnd [].

(** The first two statements of the top level of the script,
    [createDeck(); shuffleDeck();]. *)
Definition loadScript : M unit :=
  createDeck;; shuffleDeck.

(** The top level of the script: [createDeck(); shuffleDeck();
    startNewGame();].  The page is first shown in the state this
    leaves. *)
Definition pageLoad : M unit :=
  loadScript;; startNewGame.

(** ** Reference definitions for scoring, in the words of the rules *)

(** Blackjack value of a rank: 2-10 at face value, J, Q and K as 10,
    an ace as 11. *)
Definition blackjackValue (r : string) : Z :=
  if String.eqb r "A" then 11%Z
  else if includes ["J"; "Q"; "K"] r then 10%Z
  else
    match list_find (String.eqb r)
            ["2"; "3"; "4"; "5"; "6"; "7"; "8"; "9"; "10"] with
    | Some (i, _) => Z.of_nat i + 2
    | None => 0%Z
    end.

Definition isAce (c : Card) : bool := String.eqb (rank c) "A".

(** Number of aces of a hand. *)
Definition aceCount (hand : list Card) : nat :=
  length (filter (fun c => isAce c = true) hand).

(** Total with every ace counted as 11. *)
Definition softTotal (hand : list Card) : Z :=
  foldr (fun c acc => (blackjackValue (rank c) + acc)%Z) 0%Z hand.

(** Total with every ace counted as 1. *)
Definition hardTotal (hand : list Card) : Z :=
  foldr (fun c acc =>
           ((if isAce c then 1 else blackjackValue (rank c)) + acc)%Z)
        0%Z hand.

(** All valuations of a hand: each ace counts 1 or 11, independently. *)
Fixpoint valuations (hand : list Card) : list Z :=
  match hand with
  | [] => [0%Z]
  | c :: hand' =>
      let vs := valuations hand' in
      if isAce c then map (Z.add 1) vs ++ map (Z.add 11) vs
      else map (Z.add (blackjackValue (rank c))) vs
  end.

(** A card as [createDeck] makes it. *)
Definition deckCard (c : Card) : Prop := c ∈ createDeck_cards.

Definition deckCardb (c : Card) : bool :=
  bool_decide (c ∈ createDeck_cards).


(** ** Footprints of the deck operations *)

(** What a shuffle may change: the order of the deck and the pending
    randomness. *)
Definition reshuffled (d' : list Card) (rnd' : nat -> nat) (st : State)
  : State :=
  set_Math_random (fun _ => rnd') (set_deck (fun _ => d') st).

(** What a deal may change besides: [deckIndex], left one past the
    position [p] the card came from. *)
Definition dealt (d' : list Card) (rnd' : nat -> nat) (p : nat) (st : State)
  : State :=
  set_deckIndex (fun _ => S p) (reshuffled d' rnd' st).

(** ** Outcome of a round *)

Inductive Outcome : Type := Win | Lose | Push.

(** The outcome a text of the message overlay announces. *)
Definition announced (text : string) : option Outcome :=
  if String.eqb text "BUST! You lose." then Some Lose
  else if String.eqb text "Dealer Wins." then Some Lose
  else if String.eqb text "Dealer BUSTS! You Win!" then Some Win
  else if String.eqb text "You Win!" then Some Win
  else if String.eqb text "Push (Tie)." then Some Push
  else None.

(** [st'] is [st] after the cards [draws] have gone from the deck to the
    dealer's hand: the deck holds the same cards, possibly reshuffled,
    and the player's hand, the round flag and the counters are as
    before. *)
Definition dealerDrew (draws : list Card) (st st' : State) : Prop :=
  deck st' ≡ₚ deck st /\
  (deckIndex st <= length (deck st) -> deckIndex st' <= length (deck st')) /\
  dealerHand st' = dealerHand st ++ draws /\
  playerHand st' = playerHand st /\
  gameOver st' = gameOver st /\
  wins st' = wins st /\ losses st' = losses st /\ busts st' = busts st.

(** ** Runs of the game *)

(** A call of one of the three handlers the page buttons are bound to,
    run to its end before anything else happens on the page; a call of
    [playerStand] carries the bound on the passes of its loop. *)
Inductive Call : Type :=
| callStartNewGame
| callPlayerHit
| callPlayerStand (fuel : nat).

Definition handler (ev : Call) : M unit :=
  match ev with
  | callStartNewGame => startNewGame
  | callPlayerHit => playerHit
  | callPlayerStand fuel => playerStand fuel
  end.

(** Whether the button of the call is enabled. *)
Definition buttonEnabled (ev : Call) (st : State) : bool :=
  match ev with
  | callStartNewGame => negb (els_btnNew_disabled (els st))
  | callPlayerHit => negb (els_btnHit_disabled (els st))
  | callPlayerStand _ => negb (els_btnStand_disabled (els st))
  end.

(** States the game can be in when every call runs to its end before
    the next one: the deck has been made and shuffled on a page whose
    elements have the contents [e], with randomness [rnd], and handlers
    have been called one after the other.  The first call on the page
    is the [startNewGame()] of the top level of the script, so the
    states the page shows while calls do not overlap are among these;
    [running] below has the overlapping calls as well. *)
Inductive reachable (e : Els) (rnd : nat -> nat) : State -> Prop :=
| reach_load st :
    loadScript (emptyState e rnd) = Ok tt st -> reachable e rnd st
| reach_call ev st st' :
    reachable e rnd st -> handler ev st = Ok tt st' -> reachable e rnd st'.

(** States reached by clicks on enabled buttons only. *)
Inductive played (e : Els) (rnd : nat -> nat) : State -> Prop :=
| played_load st :
    loadScript (emptyState e rnd) = Ok tt st -> played e rnd st
| played_click ev st st' :
    played e rnd st -> buttonEnabled ev st = true ->
    handler ev st = Ok tt st' -> played e rnd st'.

(** Successive calls from a state; [None] when a call does not finish. *)
Fixpoint calls (evs : list Call) (st : State) : option State :=
  match evs with
  | [] => Some st
  | ev :: evs' =>
      match handler ev st with
      | Ok _ st' => calls evs' st'
      | _ => None
      end
  end.

(** The same, refusing a click on a disabled button. *)
Fixpoint clicks (evs : list Call) (st : State) : option State :=
  match evs with
  | [] => Some st
  | ev :: evs' =>
      if buttonEnabled ev st then
        match handler ev st with
        | Ok _ st' => clicks evs' st'
        | _ => None
        end
      else None
  end.

(** What every reachable state satisfies. *)
Definition Inv (st : State) : Prop :=
  deck st ≡ₚ createDeck_cards /\
  deckIndex st <= length (deck st) /\
  Forall deckCard (playerHand st) /\
  Forall deckCard (dealerHand st).

(** ** The dealer's turn as the page runs it

    [playerStand] is an [async] function.  A call runs up to the
    [await] of its loop and is suspended there until its 600 ms timer
    fires; it then runs on to the next [await] or to its end.  While a
    call is suspended the page handles whatever else happens: the round
    is still on and the hit and stand buttons are still enabled, so
    clicks start other calls.  A suspended call keeps its place in the
    loop and nothing else: [dScore] is assigned again before it is read
    again, and [gameOver] is not read again. *)

(** [playerStand] from the call to its first [await] or, when it meets
    none, to its end; [true] when the call is left suspended. *)
Definition playerStandCall : M bool :=
  st ← get;
  if gameOver st then mret false
  else
    renderTable true;;
    st ← get;
    let dScore := calculateScore (dealerHand st) in
    if lt dScore (Int 17%Z) then mret true
    else handleRoundEnd;; mret false.

(** A suspended call of [playerStand] from the firing of its timer to
    its next [await] or to its end; [true] when it is suspended
    again. *)
Definition playerStandResume : M bool :=
  dScore ← dealerDraw;
  if lt dScore (Int 17%Z) then mret true
  else handleRoundEnd;; mret false.

(** What happens on the page: a click on one of the three buttons, or
    the timer of a suspended call of [playerStand] fires. *)
Inductive Event : Type :=
| clickNew
| clickHit
| clickStand
| timerFires.

(** The page handles one event; [waiting] counts the suspended calls of
    [playerStand].  The suspended calls are all at the same place and
    keep nothing of their own, so it does not matter whose timer
    fires.  With no call suspended no timer is pending. *)
Definition onEvent (ev : Event) (waiting : nat) : M nat :=
  match ev with
  | clickNew => startNewGame;; mret waiting
  | clickHit => playerHit;; mret waiting
  | clickStand =>
      suspended ← playerStandCall;
      mret (if suspended : bool then S waiting else waiting)
  | timerFires =>
      match waiting with
      | O => mret O
      | S others =>
          suspended ← playerStandResume;
          mret (if suspended : bool then S others else others)
      end
  end.

(** Whether the event can happen: the button is enabled, a timer is
    pending. *)
Definition canHappen (ev : Event) (waiting : nat) (st : State) : bool :=
  match ev with
  | clickNew => negb (els_btnNew_disabled (els st))
  | clickHit => negb (els_btnHit_disabled (els st))
  | clickStand => negb (els_btnStand_disabled (els st))
  | timerFires => 0 <? waiting
  end.

(** Successive events. *)
Fixpoint events (evs : list Event) (waiting : nat) : M nat :=
  match evs with
  | [] => mret waiting
  | ev :: evs' => waiting' ← onEvent ev waiting; events evs' waiting'
  end.

(** Whether each of the events can happen when its turn comes. *)
Fixpoint canHappenAll (evs : list Event) (waiting : nat) (st : State)
  : bool :=
  match evs with
  | [] => true
  | ev :: evs' =>
      canHappen ev waiting st &&
      match onEvent ev waiting st with
      | Ok waiting' st' => canHappenAll evs' waiting' st'
      | _ => false
      end
  end.

(** A call of [playerStand] with nothing else happening during its
    waits: the click, then [k] firings of its timer, no call being
    suspended before or after. *)
Definition standAlone (k : nat) : M nat :=
  events (clickStand :: replicate k timerFires) 0.

(** The page at work: the script has been loaded, then events have
    happened; [running e rnd waiting st] when this can leave the
    variables as [st] with [waiting] calls of [playerStand]
    suspended. *)
Inductive running (e : Els) (rnd : nat -> nat) : nat -> State -> Prop :=
| running_load st :
    pageLoad (emptyState e rnd) = Ok tt st -> running e rnd 0 st
| running_event ev waiting st waiting' st' :
    running e rnd waiting st ->
    canHappen ev waiting st = true ->
    onEvent ev waiting st = Ok waiting' st' ->
    running e rnd waiting' st'.

(** ** Sample page, randomness and play *)

(** A page on which only the new-game button is enabled. *)
Definition samplePage : Els :=
  mkEls [] [] NaN None false "" "" true true false 0 0 0.

(** Randomness under which the shuffle at load leaves the deck in the
    order of [createDeck] and the next shuffle brings the cards of
    positions 50 and 51 to positions 0 and 50. *)
Definition sampleRandom (k : nat) : nat :=
  if (k =? 51) || (k =? 52) then 0
  else if k <? 51 then 51 - k else 102 - k.

(** Eleven rounds and the deal of a twelfth. *)
Definition samplePlay : list Call :=
  let N := callStartNewGame in
  let H := callPlayerHit in
  let S := callPlayerStand 17 in
  [N; S; N; S; N; N; S; N; S; N; N; S; N; S; N; N; H; S; N; S; N].

(** The state after the script has been loaded on the sample page. *)
Definition sampleLoaded : State :=
  match loadScript (emptyState samplePage sampleRandom) with
  | Ok _ st => st
  | _ => emptyState samplePage sampleRandom
  end.

(** Two aces and a nine. *)
Definition sampleHand : list Card :=
  [mkCard "A" "♣" (Int 11%Z); mkCard "A" "♦" (Int 11%Z);
   mkCard "9" "♣" (Int 9%Z)].

(** The state after the first deal of the sample game, and after a hit
    in it. *)
Definition sampleDealt : State :=
  match startNewGame sampleLoaded with
  | Ok _ st => st
  | _ => sampleLoaded
  end.

Definition sampleHit : State :=
  match playerHit sampleDealt with
  | Ok _ st => st
  | _ => sampleDealt
  end.

(** The sample game after a second and a third hit: the player holds
    2, 4, 6 and 7, then 8 as well. *)
Definition sampleTwoHits : State :=
  match playerHit sampleHit with
  | Ok _ st => st
  | _ => sampleHit
  end.

Definition sampleBust : State :=
  match playerHit sampleTwoHits with
  | Ok _ st => st
  | _ => sampleTwoHits
  end.

(** The sample game when stand is clicked twice after the first deal
    and two timers have fired, and when the third has fired as well. *)
Definition sampleTwoStands : State :=
  match events [clickStand; clickStand; timerFires; timerFires] 0
          sampleDealt with
  | Ok _ st => st
  | _ => sampleDealt
  end.

Definition sampleThirdTimer : State :=
  match onEvent timerFires 1 sampleTwoStands with
  | Ok _ st => st
  | _ => sampleTwoStands
  end.


(** ** States the handlers leave *)

(** A card shown face up: the card face at the column of its rank and
    the row of its suit. *)
Definition faceUp (c : Card) : CardEl :=
  cardFace (ranksMap !! rank c) (suitsMap !! suit c).

(** The state a round resolution leaves: the round over, both hands
    shown face up with their scores, the message [text] in [color], the
    buttons set by [endGame], the counters [w], [l], [b] and their
    display, and [sound] played last. *)
Definition roundEnded (text color sound : string) (w l b : nat)
    (st : State) : State :=
  mkState (deck st) (playerHand st) (dealerHand st) true (deckIndex st)
    w l b
    (mkEls (map faceUp (playerHand st)) (map faceUp (dealerHand st))
       (calculateScore (playerHand st))
       (Some (calculateScore (dealerHand st)))
       true text color true true false w l b)
    (Math_random st) (sounds st ++ [sound]).

(** The table as [renderTable()] draws it during a round: the dealer's
    first card as a card back, no dealer score. *)
Definition roundView (ph dh : list Card) (e : Els) : Els :=
  mkEls (map faceUp ph)
    (match dh with
     | [] => []
     | _ :: dh' => cardBack :: map faceUp dh'
     end)
    (calculateScore ph) None
    (els_msgOverlay_show e) (els_msgText e) (els_msgText_color e)
    (els_btnHit_disabled e) (els_btnStand_disabled e)
    (els_btnNew_disabled e)
    (els_winCount e) (els_lossCount e) (els_bustCount e).

(** The page as [startNewGame] sets it before the deal: message hidden,
    hit and stand enabled, new game disabled. *)
Definition roundPage (e : Els) : Els :=
  mkEls (els_playerHand e) (els_dealerHand e) (els_playerScore e)
    (els_dealerScore e)
    false (els_msgText e) (els_msgText_color e)
    false false true
    (els_winCount e) (els_lossCount e) (els_bustCount e).

(** Whether a rank counts ten (10, J, Q, K). *)
Definition tenValued (r : string) : bool :=
  includes ["10"; "J"; "Q"; "K"] r.

(** ** Randomness with a chosen beginning *)

(** The outcomes [js], then those of [rnd]. *)
Definition prepend (js : list nat) (rnd : nat -> nat) : nat -> nat :=
  fun k =>
    match js !! k with
    | Some j => j
    | None => rnd (k - length js)
    end.

(** ** The page against the variables *)

(** The [disabled] flags of the hit, stand and new-game buttons and the
    [show] class of the message overlay. *)
Definition controls (e : Els) : bool * bool * bool * bool :=
  (els_btnHit_disabled e, els_btnStand_disabled e, els_btnNew_disabled e,
   els_msgOverlay_show e).

(** The three counters as the page shows them. *)
Definition statsShown (e : Els) : nat * nat * nat :=
  (els_winCount e, els_lossCount e, els_bustCount e).

(** The two hands and the two scores as the page shows them. *)
Definition tableShown (e : Els)
  : list CardEl * list CardEl * num * option num :=
  (els_playerHand e, els_dealerHand e, els_playerScore e,
   els_dealerScore e).

(** Hit and stand are enabled, new game disabled and the message hidden
    exactly while the round is on. *)
Definition controlsInSync (st : State) : Prop :=
  controls (els st)
  = (gameOver st, gameOver st, negb (gameOver st), gameOver st).

Definition statsInSync (st : State) : Prop :=
  statsShown (els st) = (wins st, losses st, busts st).

(** The page shows the player's cards and score; of the dealer it shows
    everything once the round is over, and before that neither the
    first card nor the score. *)
Definition tableInSync (st : State) : Prop :=
  tableShown (els st)
  = (map faceUp (playerHand st),
     (if gameOver st then map faceUp (dealerHand st)
      else match dealerHand st with
           | [] => []
           | _ :: dh' => cardBack :: map faceUp dh'
           end),
     calculateScore (playerHand st),
     (if gameOver st then Some (calculateScore (dealerHand st))
      else None)).

(** A call of [playerHit] or [playerStand]. *)
Definition isTurnCall (ev : Call) : bool :=
  match ev with
  | callStartNewGame => false
  | _ => true
  end.

(** The state after the first deal of the sample game is reachable. *)
Definition sampleFirstPlay : list Call := [callStartNewGame].

(** ** How an outcome is announced *)

(** The colour of the message of an outcome. *)
Definition outcomeColor (o : Outcome) : string :=
  match o with
  | Win => "#4CAF50"
  | Lose => "#ff4444"
  | Push => "#fff"
  end.

(** The sound of an outcome. *)
Definition outcomeSound (o : Outcome) : string :=
  match o with
  | Win => "win"
  | Lose => "lose"
  | Push => "chip"
  end.

(** ** The sprite sheet ([generateSprite])

    The canvas context is modelled by the styles the script sets and the
    list of what has been painted, each paint with the styles in force.
    Coordinates are integers throughout ([cardW / 2] and [cardH / 2] are
    exact).  [globalAlpha] only takes the two values the script assigns;
    the one path the script fills is a full circle
    ([arc(x, y, r, 0, Math.PI * 2)]). *)

Module Sprite.

Local Open Scope Z_scope.

(** The values of [globalAlpha]: [1.0] and [0.1]. *)
Inductive Alpha : Type := alpha_1_0 | alpha_0_1.

Inductive Paint : Type :=
| filledRect (fillStyle : string) (alpha : Alpha) (x y w h : Z)
| strokedRect (strokeStyle : string) (lineWidth : Z) (alpha : Alpha)
    (x y w h : Z)
| filledText (fillStyle font textAlign : string) (alpha : Alpha)
    (text : string) (x y : Z)
| filledCircle (fillStyle : string) (alpha : Alpha) (x y r : Z).

Global Instance Alpha_eq_dec : EqDecision Alpha.
Proof. solve_decision. Defined.

Global Instance Paint_eq_dec : EqDecision Paint.
Proof. solve_decision. Defined.

Record Ctx : Type := mkCtx {
  width : Z;
  height : Z;
  fillStyle : string;
  strokeStyle : string;
  lineWidth : Z;
  font : string;
  textAlign : string;
  globalAlpha : Alpha;
  path : list (Z * Z * Z);
  painted : list Paint
}.

(** The context of a new canvas, with the defaults of the canvas
    interface (300 by 150, black, 1px lines, [10px sans-serif],
    [start]-aligned, opaque, empty path). *)
Definition newContext : Ctx :=
  mkCtx 300 150 "#000000" "#000000" 1 "10px sans-serif" "start"
    alpha_1_0 [] [].

Definition setSize (w h : Z) (c : Ctx) : Ctx :=
  mkCtx w h (fillStyle c) (strokeStyle c) (lineWidth c) (font c)
    (textAlign c) (globalAlpha c) (path c) (painted c).

Definition setFillStyle (s : string) (c : Ctx) : Ctx :=
  mkCtx (width c) (height c) s (strokeStyle c) (lineWidth c) (font c)
    (textAlign c) (globalAlpha c) (path c) (painted c).

Definition setStrokeStyle (s : string) (c : Ctx) : Ctx :=
  mkCtx (width c) (height c) (fillStyle c) s (lineWidth c) (font c)
    (textAlign c) (globalAlpha c) (path c) (painted c).

Definition setLineWidth (n : Z) (c : Ctx) : Ctx :=
  mkCtx (width c) (height c) (fillStyle c) (strokeStyle c) n (font c)
    (textAlign c) (globalAlpha c) (path c) (painted c).

Definition setFont (s : string) (c : Ctx) : Ctx :=
  mkCtx (width c) (height c) (fillStyle c) (strokeStyle c) (lineWidth c) s
    (textAlign c) (globalAlpha c) (path c) (painted c).

Definition setTextAlign (s : string) (c : Ctx) : Ctx :=
  mkCtx (width c) (height c) (fillStyle c) (strokeStyle c) (lineWidth c)
    (font c) s (globalAlpha c) (path c) (painted c).

Definition setGlobalAlpha (a : Alpha) (c : Ctx) : Ctx :=
  mkCtx (width c) (height c) (fillStyle c) (strokeStyle c) (lineWidth c)
    (font c) (textAlign c) a (path c) (painted c).

Definition setPath (p : list (Z * Z * Z)) (c : Ctx) : Ctx :=
  mkCtx (width c) (height c) (fillStyle c) (strokeStyle c) (lineWidth c)
    (font c) (textAlign c) (globalAlpha c) p (painted c).

Definition paint (ps : list Paint) (c : Ctx) : Ctx :=
  mkCtx (width c) (height c) (fillStyle c) (strokeStyle c) (lineWidth c)
    (font c) (textAlign c) (globalAlpha c) (path c) (painted c ++ ps).

Definition fillRect (x y w h : Z) (c : Ctx) : Ctx :=
  paint [filledRect (fillStyle c) (globalAlpha c) x y w h] c.

Definition strokeRect (x y w h : Z) (c : Ctx) : Ctx :=
  paint [strokedRect (strokeStyle c) (lineWidth c) (globalAlpha c) x y w h]
    c.

Definition fillText (text : string) (x y : Z) (c : Ctx) : Ctx :=
  paint [filledText (fillStyle c) (font c) (textAlign c) (globalAlpha c)
           text x y] c.

Definition beginPath (c : Ctx) : Ctx := setPath [] c.

(** [arc(x, y, r, 0, Math.PI * 2)]. *)
Definition arcFull (x y r : Z) (c : Ctx) : Ctx :=
  setPath (path c ++ [(x, y, r)]) c.

Definition fill (c : Ctx) : Ctx :=
  paint (map (fun '(x, y, r) =>
                filledCircle (fillStyle c) (globalAlpha c) x y r)
             (path c)) c.

(** [arr.forEach((item, index) => body)]. *)
Definition forEach {A : Type} (body : A -> nat -> Ctx -> Ctx)
    (arr : list A) (c : Ctx) : Ctx :=
  foldl (fun c '(index, item) => body item index c) c
    (zip (seq 0 (length arr)) arr).

Definition cardW : Z := 80.
Definition cardH : Z := 112.

(** The body of the inner [forEach]: the front of one card. *)
Definition drawFront (suit : string) (rowIndex : nat)
    (rank : string) (colIndex : nat) (c : Ctx) : Ctx :=
  let x := Z.of_nat colIndex * cardW in
  let y := Z.of_nat rowIndex * cardH in
  let c := setFillStyle "white" c in
  let c := fillRect (x + 2) (y + 2) (cardW - 4) (cardH - 4) c in
  let c := setStrokeStyle "#ccc" c in
  let c := setLineWidth 1 c in
  let c := strokeRect (x + 2) (y + 2) (cardW - 4) (cardH - 4) c in
  let c :=
    setFillStyle
      (if String.eqb suit "♥" || String.eqb suit "♦"
       then "#d40000" else "#222") c in
  let c := setFont "bold 14px sans-serif" c in
  let c := setTextAlign "center" c in
  let c := fillText rank (x + 12) (y + 18) c in
  let c := setFont "14px sans-serif" c in
  let c := fillText suit (x + 12) (y + 34) c in
  let c := setFont "40px sans-serif" c in
  let c := fillText suit (x + cardW / 2) (y + cardH / 2 + 15) c in
  if includes ["J"; "Q"; "K"] rank then
    let c := setGlobalAlpha alpha_0_1 c in
    let c := setFont "bold 50px serif" c in
    let c := fillText rank (x + cardW / 2) (y + cardH / 2 + 10) c in
    setGlobalAlpha alpha_1_0 c
  else c.

(** The body of the [for] loop: one card back. *)
Definition drawBack (backY : Z) (i : nat) (c : Ctx) : Ctx :=
  let x := Z.of_nat i * cardW in
  let c := setFillStyle "white" c in
  let c := fillRect (x + 2) (backY + 2) (cardW - 4) (cardH - 4) c in
  let c := setFillStyle "#b71c1c" c in
  let c := fillRect (x + 6) (backY + 6) (cardW - 12) (cardH - 12) c in
  let c := setFillStyle "#d32f2f" c in
  let c := beginPath c in
  let c := arcFull (x + cardW / 2) (backY + cardH / 2) 20 c in
  fill c.

(** The canvas [generateSprite] turns into the [--card-sprite] image. *)
Definition generateSprite : Ctx :=
  let c := newContext in
  let c := setSize (cardW * 13) (cardH * 5) c in
  let c :=
    forEach (fun suit rowIndex =>
               forEach (fun rank colIndex =>
                          drawFront suit rowIndex rank colIndex)
                       ranks)
            suits c in
  let backY := 4 * cardH in
  foldl (fun c i => drawBack backY i c) c (seq 0 13).

(** The box a paint covers, as [(left, top, right, bottom)]; for a
    text, its anchor point. *)
Definition extent (p : Paint) : Z * Z * Z * Z :=
  match p with
  | filledRect _ _ x y w h => (x, y, x + w, y + h)
  | strokedRect _ _ _ x y w h => (x, y, x + w, y + h)
  | filledText _ _ _ _ _ x y => (x, y, x + 1, y + 1)
  | filledCircle _ _ x y r => (x - r, y - r, x + r, y + r)
  end.

(** The text of a paint, if it is one. *)
Definition textOf (p : Paint) : option string :=
  match p with
  | filledText _ _ _ _ text _ _ => Some text
  | _ => None
  end.

(** The paints that lie in the cell of column [col] and row [row]. *)
Definition inCell (col row : nat) (p : Paint) : bool :=
  let '(x0, y0, x1, y1) := extent p in
  (Z.of_nat col * cardW <=? x0) && (x1 <=? (Z.of_nat col + 1) * cardW)
  && (Z.of_nat row * cardH <=? y0) && (y1 <=? (Z.of_nat row + 1) * cardH).

Definition cellPaints (col row : nat) : list Paint :=
  filter (fun p => inCell col row p = true) (painted generateSprite).

(** The face of rank [r] and suit [s] as drawn at column [col], row
    [row]: the white card with its border, the rank and the suit in the
    corner and the large suit, in red for hearts and diamonds, and for
    J, Q and K the faint letter. *)
Definition faceOf (r s : string) (col row : nat) : list Paint :=
  let x := Z.of_nat col * 80 in
  let y := Z.of_nat row * 112 in
  let ink :=
    if String.eqb s "♥" || String.eqb s "♦" then "#d40000" else "#222" in
  [filledRect "white" alpha_1_0 (x + 2) (y + 2) 76 108;
   strokedRect "#ccc" 1 alpha_1_0 (x + 2) (y + 2) 76 108;
   filledText ink "bold 14px sans-serif" "center" alpha_1_0 r
     (x + 12) (y + 18);
   filledText ink "14px sans-serif" "center" alpha_1_0 s (x + 12) (y + 34);
   filledText ink "40px sans-serif" "center" alpha_1_0 s (x + 40) (y + 71)]
  ++ (if includes ["J"; "Q"; "K"] r
      then [filledText ink "bold 50px serif" "center" alpha_0_1 r
              (x + 40) (y + 66)]
      else []).

(** Whether the cell [createCardEl] gives card [c] holds the face of
    [c] and nothing else. *)
Definition cellShowsCard (c : Card) : bool :=
  match createCardEl c false with
  | cardFace (Some col) (Some row) =>
      bool_decide (cellPaints col row = faceOf (rank c) (suit c) col row)
  | _ => false
  end.

(** Whether a paint lies inside one cell of the 13 by 5 grid: the
    cell of its left upper corner. *)
Definition withinOneCell (p : Paint) : bool :=
  let '(x0, y0, _, _) := extent p in
  let col := Z.to_nat (x0 / cardW) in
  let row := Z.to_nat (y0 / cardH) in
  inCell col row p && (col <? 13)%nat && (row <? 5)%nat.

End Sprite.

(** ** More sample inputs *)

(** The state after standing on the first deal of the sample game. *)
Definition sampleStood : State :=
  match playerStand 17 sampleDealt with
  | Ok _ st => st
  | _ => sampleDealt
  end.

Definition sampleAce : Card := mkCard "A" "♣" (Int 11%Z).
Definition sampleKing : Card := mkCard "K" "♠" (Int 10%Z).

(** * Properties *)

(** ** The cards of the deck *)

Section DeckCards.

Lemma createDeck_cards_length : length createDeck_cards = 52.
Proof. reflexivity. Qed.

Example parseInt_ranks :
  map parseInt ["2"; "10"; "J"; "A"] = [Int 2; Int 10; NaN; NaN].
Proof. reflexivity. Qed.

Example rankValue_ranks :
  map rankValue ranks
  = map Int [2; 3; 4; 5; 6; 7; 8; 9; 10; 10; 10; 10; 11]%Z.
Proof. reflexivity. Qed.

Example calculateScore_sampleHand : calculateScore sampleHand = Int 21.
Proof. reflexivity. Qed.

Lemma deckCardb_spec (c : Card) : deckCardb c = true <-> deckCard c.
Proof. unfold deckCardb, deckCard. apply bool_decide_eq_true. Qed.

(** Every card of the deck carries the blackjack value of its rank. *)
Lemma deckCard_value (c : Card) :
  deckCard c -> value c = Int (blackjackValue (rank c)).
Proof.
  assert (H : Forall (fun c => value c = Int (blackjackValue (rank c)))
                createDeck_cards)
    by (vm_compute; repeat constructor).
  intros Hc. exact (proj1 (Forall_forall _ _) H c Hc).
Qed.

Lemma deckCard_rank (c : Card) : deckCard c -> rank c ∈ ranks.
Proof.
  assert (H : Forall (fun c => rank c ∈ ranks) createDeck_cards).
  { vm_compute createDeck_cards.
    repeat (constructor; [by apply (bool_decide_unpack _) |]).
    constructor. }
  intros Hc. exact (proj1 (Forall_forall _ _) H c Hc).
Qed.

Lemma blackjackValue_ranks (r : string) :
  r ∈ ranks ->
  (if String.eqb r "A" then blackjackValue r = 11%Z
   else (2 <= blackjackValue r <= 10)%Z).
Proof.
  assert (H : Forall (fun r => if String.eqb r "A"
                               then blackjackValue r = 11%Z
                               else (2 <= blackjackValue r <= 10)%Z) ranks)
    by (vm_compute; repeat constructor; discriminate).
  intros Hr. exact (proj1 (Forall_forall _ _) H r Hr).
Qed.

End DeckCards.

(** ** Scoring *)

Section Scoring.

Local Open Scope Z_scope.

Lemma tally_from (hand : list Card) (z : Z) (n : nat) :
  Forall deckCard hand ->
  foldl (fun '(score, aces) c =>
           (add score (value c),
            if String.eqb (rank c) "A" then S aces else aces))
        (Int z, n) hand
  = (Int (z + softTotal hand), (n + aceCount hand)%nat).
Proof.
  intros Hh. revert z n.
  induction Hh as [|c hand Hc Hh IH]; intros z n; simpl.
  - f_equal; [f_equal; lia | unfold aceCount; simpl; lia].
  - rewrite (deckCard_value c Hc). simpl. rewrite IH.
    unfold aceCount. rewrite filter_cons. unfold isAce.
    destruct (String.eqb (rank c) "A") eqn:E.
    + rewrite decide_True by done. simpl. f_equal; [f_equal; lia | lia].
    + rewrite decide_False by done. f_equal. f_equal. lia.
Qed.

Lemma tally_deckCards (hand : list Card) :
  Forall deckCard hand ->
  tally hand = (Int (softTotal hand), aceCount hand).
Proof. intros Hh. unfold tally. by rewrite tally_from. Qed.

Lemma hardTotal_softTotal (hand : list Card) :
  Forall deckCard hand ->
  softTotal hand = hardTotal hand + 10 * Z.of_nat (aceCount hand).
Proof.
  induction 1 as [|c hand Hc Hh IH]; [done|].
  simpl. rewrite IH. unfold aceCount. rewrite filter_cons.
  pose proof (blackjackValue_ranks _ (deckCard_rank c Hc)) as Hv.
  unfold isAce. destruct (String.eqb (rank c) "A").
  - rewrite decide_True by done. simpl length. lia.
  - rewrite decide_False by done. lia.
Qed.

(** The result of the ace loop: [k] reductions, where [k] is the least
    number that brings the total to 21 or below, or all the aces. *)
Lemma softenAces_spec (t : Z) (n : nat) :
  exists k : nat,
    (k <= n)%nat /\
    softenAces (Int t) n = Int (t - 10 * Z.of_nat k) /\
    (t - 10 * Z.of_nat k <= 21 \/ k = n) /\
    (forall k' : nat, (k' < k)%nat -> t - 10 * Z.of_nat k' > 21).
Proof.
  revert t. induction n as [|n IH]; intros t; simpl.
  - exists O. split_and!; [lia | f_equal; lia | by right | lia].
  - destruct (21 <? t) eqn:E.
    + apply Z.ltb_lt in E.
      destruct (IH (t - 10)) as (k & Hk & Hs & Hend & Hmin).
      exists (S k). split_and!.
      * lia.
      * rewrite Hs. f_equal. lia.
      * destruct Hend; [left; lia | right; lia].
      * intros [|k'] Hlt; [lia|]. specialize (Hmin k'). lia.
    + apply Z.ltb_ge in E. exists O. split_and!.
      * lia.
      * f_equal. lia.
      * left. lia.
      * lia.
Qed.

(** The valuations of a hand are its hard total plus ten for each ace
    counted high. *)
Lemma valuations_spec (hand : list Card) (v : Z) :
  v ∈ valuations hand <->
  exists k : nat, (k <= aceCount hand)%nat /\ v = hardTotal hand + 10 * Z.of_nat k.
Proof.
  revert v. induction hand as [|c hand IH]; intros v; simpl.
  - rewrite list_elem_of_singleton. unfold aceCount. simpl. split.
    + intros ->. exists O. lia.
    + intros (k & Hk & ->). lia.
  - unfold aceCount. rewrite filter_cons.
    destruct (isAce c) eqn:E.
    + rewrite decide_True by done. simpl length.
      rewrite elem_of_app, !list_elem_of_fmap. split.
      * intros [(w & -> & Hw) | (w & -> & Hw)];
          apply IH in Hw as (k & Hk & ->).
        -- exists k. unfold aceCount in Hk. lia.
        -- exists (S k). unfold aceCount in Hk. lia.
      * intros (k & Hk & ->).
        destruct (decide (k <= aceCount hand)%nat) as [Hle|Hgt].
        -- left. exists (hardTotal hand + 10 * Z.of_nat k).
           split; [lia|]. apply IH. eauto.
        -- right. exists (hardTotal hand + 10 * Z.of_nat (k - 1)).
           unfold aceCount in *. split; [lia|]. apply IH.
           exists (k - 1)%nat. unfold aceCount. lia.
    + rewrite decide_False by done.
      rewrite list_elem_of_fmap. split.
      * intros (w & -> & Hw). apply IH in Hw as (k & Hk & ->).
        exists k. unfold aceCount in Hk. lia.
      * intros (k & Hk & ->).
        exists (hardTotal hand + 10 * Z.of_nat k). split; [lia|].
        apply IH. eauto.
Qed.

(** On deck cards the score is an integer between the hard total and
    the soft total. *)
Lemma calculateScore_Int (hand : list Card) :
  Forall deckCard hand ->
  exists s : Z,
    calculateScore hand = Int s /\ hardTotal hand <= s <= softTotal hand /\
    (s <= 21 \/ s = hardTotal hand).
Proof.
  intros Hh. unfold calculateScore. rewrite (tally_deckCards hand Hh).
  destruct (softenAces_spec (softTotal hand) (aceCount hand))
    as (k & Hk & Hs & Hend & _).
  pose proof (hardTotal_softTotal hand Hh).
  eexists; split; [exact Hs | lia].
Qed.

Lemma strictEq_Int (a : num) (z : Z) : strictEq a (Int z) = true <-> a = Int z.
Proof.
  destruct a as [x|]; simpl; [|done].
  rewrite Z.eqb_eq. split; congruence.
Qed.

Lemma hardTotal_app (h1 h2 : list Card) :
  hardTotal (h1 ++ h2) = hardTotal h1 + hardTotal h2.
Proof.
  induction h1 as [|c h1 IH]; simpl; [done|].
  fold (hardTotal (h1 ++ h2)). fold (hardTotal h1). lia.
Qed.

Lemma hardTotal_card (c : Card) :
  deckCard c -> 1 <= hardTotal [c] <= 10.
Proof.
  intros Hc. simpl.
  pose proof (blackjackValue_ranks _ (deckCard_rank c Hc)) as Hv.
  unfold isAce. destruct (String.eqb (rank c) "A"); lia.
Qed.

Lemma hardTotal_nonneg (hand : list Card) :
  Forall deckCard hand -> 0 <= hardTotal hand.
Proof.
  induction 1 as [|c hand Hc Hh IH]; [done|].
  change (c :: hand) with ([c] ++ hand). rewrite hardTotal_app.
  pose proof (hardTotal_card c Hc). lia.
Qed.

(** C1. On a hand of deck cards [calculateScore] returns the sum of the
    blackjack values of the cards lowered by 10 for [k] aces, where [k]
    is the first count at which the total is at most 21 or, failing
    that, the number of aces.  Equivalently: when some valuation of the
    hand (each ace 1 or 11) is at most 21 the result is the largest
    such valuation, and when none is the result is the total with every
    ace counted as 1. *)
Theorem calculateScore_spec (hand : list Card) :
  Forall deckCard hand ->
  exists (s : Z) (k : nat),
    calculateScore hand = Int s /\
    (k <= aceCount hand)%nat /\
    s = softTotal hand - 10 * Z.of_nat k /\
    (s <= 21 \/ k = aceCount hand) /\
    (forall k' : nat, (k' < k)%nat -> softTotal hand - 10 * Z.of_nat k' > 21) /\
    ((exists v, v ∈ valuations hand /\ v <= 21) ->
       s ∈ valuations hand /\ s <= 21 /\
       forall v, v ∈ valuations hand -> v <= 21 -> v <= s) /\
    ((forall v, v ∈ valuations hand -> v > 21) -> s = hardTotal hand).
Proof.
  intros Hh. unfold calculateScore. rewrite (tally_deckCards hand Hh).
  destruct (softenAces_spec (softTotal hand) (aceCount hand))
    as (k & Hk & Hs & Hend & Hmin).
  pose proof (hardTotal_softTotal hand Hh) as Hsoft.
  exists (softTotal hand - 10 * Z.of_nat k), k.
  assert (Hin : softTotal hand - 10 * Z.of_nat k ∈ valuations hand).
  { apply valuations_spec. exists (aceCount hand - k)%nat. lia. }
  split_and!; try done.
  - intros (v & Hv & Hle). apply valuations_spec in Hv as (j & Hj & ->).
    split_and!; [done | destruct Hend; lia |].
    intros v Hv Hv21. apply valuations_spec in Hv as (i & Hi & ->).
    destruct (decide (i <= aceCount hand - k)%nat) as [|Hgt]; [lia|].
    specialize (Hmin (aceCount hand - i)%nat). lia.
  - intros Hall. specialize (Hall _ Hin). destruct Hend; lia.
Qed.

End Scoring.

(** ** Shuffling and dealing *)

Section Deck.

Implicit Types (d : list Card) (st : State).

Lemma insert_head_Permutation d (j : nat) (b x : Card) :
  d !! j = Some b -> b :: <[j := x]> d ≡ₚ x :: d.
Proof.
  revert j. induction d as [|y d IH]; intros [|j] Hj; simplify_eq/=.
  - apply Permutation_swap.
  - rewrite Permutation_swap, (IH j Hj). apply Permutation_swap.
Qed.

Lemma insert_insert_Permutation d (i j : nat) (a b : Card) :
  d !! i = Some a -> d !! j = Some b ->
  <[j := a]> (<[i := b]> d) ≡ₚ d.
Proof.
  revert i j. induction d as [|y d IH]; intros [|i] [|j] Hi Hj;
    simplify_eq/=; try done.
  - by apply insert_head_Permutation.
  - by apply insert_head_Permutation.
  - f_equiv. by apply IH.
Qed.

Lemma swap_Permutation (i j : nat) d : swap i j d ≡ₚ d.
Proof.
  unfold swap. destruct (d !! i) as [a|] eqn:Hi; [|done].
  destruct (d !! j) as [b|] eqn:Hj; [|done].
  by apply insert_insert_Permutation.
Qed.

(** In the shuffle loop both indices of a swap are inside the array. *)
Lemma swap_in_range (i j : nat) d :
  i < length d -> j <= i ->
  exists a b, d !! i = Some a /\ d !! j = Some b /\
              swap i j d = <[j := a]> (<[i := b]> d).
Proof.
  intros Hi Hj.
  destruct (lookup_lt_is_Some_2 d i Hi) as [a Ha].
  destruct (lookup_lt_is_Some_2 d j ltac:(lia)) as [b Hb].
  exists a, b. unfold swap. by rewrite Ha, Hb.
Qed.

Lemma shuffleLoop_spec (i : nat) st :
  exists d' rnd',
    shuffleLoop i st = Ok tt (reshuffled d' rnd' st) /\ d' ≡ₚ deck st.
Proof.
  revert st. induction i as [|i IH]; intros st.
  - exists (deck st), (Math_random st). split; [|done].
    by destruct st.
  - cbn [shuffleLoop]. unfold mbind, M_bind, floorRandom, modify.
    match goal with |- context [shuffleLoop i ?s] =>
      destruct (IH s) as (d' & rnd' & -> & Hp) end.
    exists d', rnd'. split; [done|].
    rewrite Hp. cbn. apply swap_Permutation.
Qed.

Lemma shuffleDeck_spec st :
  exists d' rnd',
    shuffleDeck st
    = Ok tt (set_deckIndex (fun _ => 0) (reshuffled d' rnd' st)) /\
    d' ≡ₚ deck st.
Proof.
  unfold shuffleDeck, mbind, M_bind, get, modify.
  destruct (shuffleLoop_spec (length (deck st) - 1) st)
    as (d' & rnd' & -> & Hp).
  by exists d', rnd'.
Qed.

(** C6. [shuffleDeck] always finishes; the deck afterwards is a
    permutation of the deck before (the same cards with the same
    multiplicities), [deckIndex] is 0, and no other variable of the game
    is touched. *)
Theorem shuffleDeck_permutes st :
  exists st',
    shuffleDeck st = Ok tt st' /\
    deck st' ≡ₚ deck st /\
    deckIndex st' = 0 /\
    playerHand st' = playerHand st /\ dealerHand st' = dealerHand st /\
    gameOver st' = gameOver st /\
    wins st' = wins st /\ losses st' = losses st /\ busts st' = busts st.
Proof.
  destruct (shuffleDeck_spec st) as (d' & rnd' & -> & Hp).
  eexists; split; [done|]. by cbn.
Qed.

Lemma dealCard_empty st : deck st = [] -> dealCard st = TypeError.
Proof.
  intros Hd. unfold dealCard, mbind, M_bind, get. rewrite Hd. cbn.
  unfold shuffleDeck, mbind, M_bind, get, modify. rewrite Hd. cbn.
  by rewrite Hd.
Qed.

(** One deal from a deck that is not empty: the card comes from
    position [p] of the deck as it is after the deal; that deck and
    position are the old ones unless every position had been dealt, in
    which case the deck is reshuffled and [p] is 0. *)
Lemma dealCard_spec st :
  deck st <> [] ->
  exists d' rnd' p c,
    dealCard st = Ok c (dealt d' rnd' p st) /\
    d' ≡ₚ deck st /\
    d' !! p = Some c /\
    (if decide (deckIndex st < length (deck st))
     then d' = deck st /\ rnd' = Math_random st /\ p = deckIndex st
     else p = 0).
Proof.
  intros Hne. unfold dealCard, mbind, M_bind, get.
  destruct (length (deck st) <=? deckIndex st) eqn:E.
  - apply Nat.leb_le in E.
    destruct (shuffleDeck_spec st) as (d' & rnd' & -> & Hp).
    cbn. destruct d' as [|c d'].
    { apply Permutation_nil_l in Hp. by symmetry in Hp. }
    exists (c :: d'), rnd', 0, c. rewrite decide_False by lia.
    by split_and!.
  - apply Nat.leb_gt in E. cbn.
    destruct (lookup_lt_is_Some_2 _ _ E) as [c Hc]. rewrite Hc.
    exists (deck st), (Math_random st), (deckIndex st), c.
    rewrite decide_True by lia. by split_and!.
Qed.

End Deck.

(** ** Round resolution *)

(** Reads of a variable through the writes before it. *)
Tactic Notation "simpl_state" :=
  cbn [deck playerHand dealerHand gameOver deckIndex wins losses busts els
       Math_random sounds set_deck set_playerHand set_dealerHand
       set_gameOver set_deckIndex set_wins set_losses set_busts set_els
       set_Math_random set_sounds reshuffled dealt
       els_playerHand els_dealerHand els_playerScore els_dealerScore
       els_msgOverlay_show els_msgText els_msgText_color
       els_btnHit_disabled els_btnStand_disabled els_btnNew_disabled
       els_winCount els_lossCount els_bustCount app].

Tactic Notation "simpl_state" "in" hyp(H) :=
  cbn [deck playerHand dealerHand gameOver deckIndex wins losses busts els
       Math_random sounds set_deck set_playerHand set_dealerHand
       set_gameOver set_deckIndex set_wins set_losses set_busts set_els
       set_Math_random set_sounds reshuffled dealt
       els_playerHand els_dealerHand els_playerScore els_dealerScore
       els_msgOverlay_show els_msgText els_msgText_color
       els_btnHit_disabled els_btnStand_disabled els_btnNew_disabled
       els_winCount els_lossCount els_bustCount app] in H.

Ltac unfold_M :=
  unfold playSound, hideMessage, showMessage, endGame, setButtons,
    updateStats, renderTable, mbind, M_bind, mret, M_ret, get, modify.

Section RoundEnd.

Local Open Scope Z_scope.
Implicit Types (st : State) (p d : Z).

(** With [showDealerHidden] set, [renderTable] shows every card of the
    dealer. *)
Lemma imap_reveal (h : list Card) :
  imap (fun (index : nat) c =>
          if (index =? 0)%nat && negb true
          then createCardEl c true else createCardEl c false) h
  = map (fun c => createCardEl c false) h.
Proof.
  rewrite <- (imap_const (fun c => createCardEl c false)).
  apply imap_ext. intros i c _. simpl. by rewrite andb_false_r.
Qed.

(** Whatever the scores, [handleRoundEnd] finishes, ends the round,
    shows the whole dealer hand and leaves the deck and the hands
    alone. *)
Lemma handleRoundEnd_frame st :
  exists st',
    handleRoundEnd st = Ok tt st' /\
    gameOver st' = true /\
    deck st' = deck st /\ deckIndex st' = deckIndex st /\
    playerHand st' = playerHand st /\ dealerHand st' = dealerHand st /\
    els_dealerHand (els st')
    = map (fun c => createCardEl c false) (dealerHand st) /\
    els_dealerScore (els st') = Some (calculateScore (dealerHand st)).
Proof.
  unfold handleRoundEnd. unfold_M.
  destruct (gt (calculateScore (playerHand st)) (Int 21));
    [eexists; split; [reflexivity|]; simpl_state;
     by rewrite imap_reveal|].
  destruct (gt (calculateScore (dealerHand st)) (Int 21));
    [eexists; split; [reflexivity|]; simpl_state;
     by rewrite imap_reveal|].
  destruct (gt (calculateScore (playerHand st))
              (calculateScore (dealerHand st)));
    [eexists; split; [reflexivity|]; simpl_state;
     by rewrite imap_reveal|].
  destruct (gt (calculateScore (dealerHand st))
              (calculateScore (playerHand st)));
    eexists; (split; [reflexivity|]); simpl_state;
    by rewrite imap_reveal.
Qed.


(** The five branches of [handleRoundEnd], on integer scores. *)
Lemma handleRoundEnd_cases st p d :
  calculateScore (playerHand st) = Int p ->
  calculateScore (dealerHand st) = Int d ->
  exists st',
    handleRoundEnd st = Ok tt st' /\
    gameOver st' = true /\
    deck st' = deck st /\ deckIndex st' = deckIndex st /\
    playerHand st' = playerHand st /\ dealerHand st' = dealerHand st /\
    els_msgOverlay_show (els st') = true /\
    els_btnHit_disabled (els st') = true /\
    els_btnStand_disabled (els st') = true /\
    els_btnNew_disabled (els st') = false /\
    els_winCount (els st') = wins st' /\
    els_lossCount (els st') = losses st' /\
    els_bustCount (els st') = busts st' /\
    ((p > 21 /\ els_msgText (els st') = "BUST! You lose." /\
      wins st' = wins st /\ losses st' = losses st /\
      busts st' = S (busts st)) \/
     (p <= 21 /\ d > 21 /\
      els_msgText (els st') = "Dealer BUSTS! You Win!" /\
      wins st' = S (wins st) /\ losses st' = losses st /\
      busts st' = busts st) \/
     (p <= 21 /\ d <= 21 /\ p > d /\
      els_msgText (els st') = "You Win!" /\
      wins st' = S (wins st) /\ losses st' = losses st /\
      busts st' = busts st) \/
     (p <= 21 /\ d <= 21 /\ d > p /\
      els_msgText (els st') = "Dealer Wins." /\
      wins st' = wins st /\ losses st' = S (losses st) /\
      busts st' = busts st) \/
     (p <= 21 /\ d <= 21 /\ p = d /\
      els_msgText (els st') = "Push (Tie)." /\
      wins st' = wins st /\ losses st' = losses st /\
      busts st' = busts st)).
Proof.
  intros Hp Hd. unfold handleRoundEnd. unfold_M. rewrite Hp, Hd.
  cbn [gt].
  destruct (21 <? p) eqn:E1; [apply Z.ltb_lt in E1 | apply Z.ltb_ge in E1].
  { eexists; split; [reflexivity|]. cbn. split_and!; try done.
    left. split_and!; [lia | done..]. }
  destruct (21 <? d) eqn:E2; [apply Z.ltb_lt in E2 | apply Z.ltb_ge in E2].
  { eexists; split; [reflexivity|]. cbn. split_and!; try done.
    right; left. split_and!; [lia.. | done | done | done | done]. }
  destruct (d <? p) eqn:E3; [apply Z.ltb_lt in E3 | apply Z.ltb_ge in E3].
  { eexists; split; [reflexivity|]. cbn. split_and!; try done.
    do 2 right; left. split_and!; first [lia | done]. }
  destruct (p <? d) eqn:E4; [apply Z.ltb_lt in E4 | apply Z.ltb_ge in E4].
  { eexists; split; [reflexivity|]. cbn. split_and!; try done.
    do 3 right; left. split_and!; first [lia | done]. }
  eexists; split; [reflexivity|]. cbn. split_and!; try done.
  do 4 right. split_and!; first [lia | done].
Qed.

(** C3. On integer scores [p] (player) and [d] (dealer),
    [handleRoundEnd] announces exactly one outcome: a loss when
    [p > 21], or when neither score exceeds 21 and [d > p]; a win when
    [p <= 21] and either [d > 21] or [p > d]; a push exactly when
    neither score exceeds 21 and [p = d].  On a push the three counters
    keep their values; otherwise exactly one of them grows by one and
    the other two keep theirs.  The counters shown on the page are the
    updated ones. *)
Theorem handleRoundEnd_classifies st p d :
  calculateScore (playerHand st) = Int p ->
  calculateScore (dealerHand st) = Int d ->
  exists st' o,
    handleRoundEnd st = Ok tt st' /\
    announced (els_msgText (els st')) = Some o /\
    (o = Lose <-> p > 21 \/ (p <= 21 /\ d <= 21 /\ d > p)) /\
    (o = Win <-> p <= 21 /\ (d > 21 \/ p > d)) /\
    (o = Push <-> p <= 21 /\ d <= 21 /\ p = d) /\
    (o = Push ->
       wins st' = wins st /\ losses st' = losses st /\
       busts st' = busts st) /\
    (o <> Push ->
       (wins st' = S (wins st) /\ losses st' = losses st /\
        busts st' = busts st) \/
       (wins st' = wins st /\ losses st' = S (losses st) /\
        busts st' = busts st) \/
       (wins st' = wins st /\ losses st' = losses st /\
        busts st' = S (busts st))) /\
    els_winCount (els st') = wins st' /\
    els_lossCount (els st') = losses st' /\
    els_bustCount (els st') = busts st'.
Proof.
  intros Hp Hd.
  destruct (handleRoundEnd_cases st p d Hp Hd)
    as (st' & Hrun & _ & _ & _ & _ & _ & _ & _ & _ & _ & Hw & Hl & Hb & Hc).
  exists st'.
  destruct Hc as [(? & Hm & ? & ? & ?) | [(? & ? & Hm & ? & ? & ?) |
    [(? & ? & ? & Hm & ? & ? & ?) | [(? & ? & ? & Hm & ? & ? & ?) |
    (? & ? & ? & Hm & ? & ? & ?)]]]]; rewrite Hm.
  all: eexists; (split_and!; [done | reflexivity | ..]);
    first [ done
          | split; intros; first [done | lia | exfalso; lia]
          | intros; first [done | by left | by (right; left)
                          | by (right; right)] ].
Qed.

End RoundEnd.

(** ** The player's turn *)

Section PlayerTurn.

Local Open Scope Z_scope.
Implicit Types (st : State).

Lemma playerHit_over st : gameOver st = true -> playerHit st = Ok tt st.
Proof. intros Hgo. unfold playerHit. unfold_M. by rewrite Hgo. Qed.

(** [playerHit] while the round is on: one deal, then the bust test. *)
Lemma playerHit_run st :
  gameOver st = false ->
  deck st <> [] ->
  exists st' c,
    playerHit st = Ok tt st' /\
    deck st' ≡ₚ deck st /\ c ∈ deck st /\
    (deckIndex st' <= length (deck st'))%nat /\
    playerHand st' = playerHand st ++ [c] /\
    dealerHand st' = dealerHand st /\
    wins st' = wins st /\ losses st' = losses st /\
    (if gt (calculateScore (playerHand st ++ [c])) (Int 21)
     then
       gameOver st' = true /\ busts st' = S (busts st) /\
       els_btnHit_disabled (els st') = true /\
       els_btnStand_disabled (els st') = true /\
       els_btnNew_disabled (els st') = false /\
       els_msgText (els st') = "BUST! You lose." /\
       els_winCount (els st') = wins st' /\
       els_lossCount (els st') = losses st' /\
       els_bustCount (els st') = busts st'
     else
       gameOver st' = false /\ busts st' = busts st /\
       els_btnHit_disabled (els st') = els_btnHit_disabled (els st) /\
       els_btnStand_disabled (els st') = els_btnStand_disabled (els st) /\
       els_btnNew_disabled (els st') = els_btnNew_disabled (els st) /\
       els_winCount (els st') = els_winCount (els st) /\
       els_lossCount (els st') = els_lossCount (els st) /\
       els_bustCount (els st') = els_bustCount (els st)).
Proof.
  intros Hgo Hne. unfold playerHit. unfold_M. rewrite Hgo.
  match goal with |- context [dealCard ?s0] =>
    destruct (dealCard_spec s0) as (d' & rnd' & p & c & -> & Hp & Hc & _)
  end; [done|].
  simpl_state. simpl_state in Hp.
  assert (Hin : c ∈ deck st).
  { rewrite <- Hp. by apply list_elem_of_lookup_2 in Hc. }
  apply lookup_lt_Some in Hc.
  destruct (gt (calculateScore (playerHand st ++ [c])) (Int 21)) eqn:E;
    cbn beta iota; eexists _, c; (split; [reflexivity|]); simpl_state;
    rewrite ?E; split_and!; first [done | lia].
Qed.

(** C5. Called while the round is on, with a deck of deck cards,
    [playerHit] appends exactly one card to the player's hand.  If the
    new score [s] exceeds 21 the round is over as a bust: [busts] grows
    by one, the hit and stand buttons are disabled and the loss is
    announced; if not the round goes on ([gameOver] stays false) and
    [busts] and the displayed counters are unchanged.  [wins] and
    [losses] are unchanged either way. *)
Theorem playerHit_spec st :
  gameOver st = false ->
  deck st <> [] ->
  Forall deckCard (deck st) ->
  Forall deckCard (playerHand st) ->
  exists st' c s,
    playerHit st = Ok tt st' /\
    playerHand st' = playerHand st ++ [c] /\
    dealerHand st' = dealerHand st /\
    calculateScore (playerHand st') = Int s /\
    wins st' = wins st /\ losses st' = losses st /\
    (gameOver st' = true <-> s > 21) /\
    (s > 21 ->
       busts st' = S (busts st) /\
       els_btnHit_disabled (els st') = true /\
       els_btnStand_disabled (els st') = true /\
       announced (els_msgText (els st')) = Some Lose /\
       els_bustCount (els st') = busts st') /\
    (s <= 21 ->
       gameOver st' = false /\ busts st' = busts st /\
       els_btnHit_disabled (els st') = els_btnHit_disabled (els st) /\
       els_btnStand_disabled (els st') = els_btnStand_disabled (els st) /\
       els_winCount (els st') = els_winCount (els st) /\
       els_lossCount (els st') = els_lossCount (els st) /\
       els_bustCount (els st') = els_bustCount (els st)).
Proof.
  intros Hgo Hne Hdeck Hhand.
  destruct (playerHit_run st Hgo Hne)
    as (st' & c & Hrun & Hp & Hin & _ & Hph & Hdh & Hw & Hl & Hc).
  assert (Hcd : deckCard c)
    by exact (proj1 (Forall_forall _ _) Hdeck c Hin).
  destruct (calculateScore_Int (playerHand st ++ [c])) as (s & Hs & _).
  { apply Forall_app. split; [done | by constructor]. }
  exists st', c, s. rewrite Hph. rewrite Hs in Hc. cbn [gt] in Hc.
  destruct (21 <? s) eqn:E; [apply Z.ltb_lt in E | apply Z.ltb_ge in E];
    destruct Hc as (Hgo' & Hb & Hb1 & Hb2 & Hb3 & Hrest).
  - destruct Hrest as (Hm & _ & _ & Hbc). rewrite Hm.
    split_and!; try done; first [intros; lia | split; intros; lia || done].
  - destruct Hrest as (? & ? & ?).
    split_and!; try done; try (intros; lia).
    rewrite Hgo'. split; [done | lia].
Qed.

End PlayerTurn.

(** ** The dealer's turn *)

Section DealerTurn.

Local Open Scope Z_scope.
Implicit Types (st : State).

Lemma dealerDrew_nil st : dealerDrew [] st st.
Proof. unfold dealerDrew. by rewrite app_nil_r. Qed.

Lemma dealerDrew_app (d1 d2 : list Card) st st1 st2 :
  dealerDrew d1 st st1 -> dealerDrew d2 st1 st2 ->
  dealerDrew (d1 ++ d2) st st2.
Proof.
  intros (Hp1 & Hi1 & Hh1 & Hpl1 & Hgo1 & Hw1 & Hl1 & Hb1)
         (Hp2 & Hi2 & Hh2 & Hpl2 & Hgo2 & Hw2 & Hl2 & Hb2).
  unfold dealerDrew. split_and!; try congruence.
  - by rewrite Hp2.
  - auto.
  - by rewrite Hh2, Hh1, app_assoc.
Qed.

Lemma dealerDraw_spec st :
  deck st <> [] ->
  exists st' c,
    dealerDraw st = Ok (calculateScore (dealerHand st ++ [c])) st' /\
    dealerDrew [c] st st' /\ c ∈ deck st.
Proof.
  intros Hne. unfold dealerDraw. unfold_M.
  match goal with |- context [dealCard ?s0] =>
    destruct (dealCard_spec s0) as (d' & rnd' & p & c & -> & Hp & Hc & _)
  end; [done|].
  simpl_state. simpl_state in Hp.
  eexists _, c. split; [reflexivity|]. split.
  - unfold dealerDrew; simpl_state. apply lookup_lt_Some in Hc.
    split_and!; first [done | lia].
  - rewrite <- Hp. by apply list_elem_of_lookup_2 in Hc.
Qed.

(** What a finished run of the dealer's loop has done. *)
Lemma dealerLoop_run (fuel : nat) st st' :
  deck st <> [] ->
  dealerLoop fuel (calculateScore (dealerHand st)) st = Ok tt st' ->
  exists draws,
    dealerDrew draws st st' /\
    Forall (fun c => c ∈ deck st) draws /\
    (forall n : nat, (n < length draws)%nat ->
       lt (calculateScore (dealerHand st ++ take n draws)) (Int 17) = true) /\
    lt (calculateScore (dealerHand st')) (Int 17) = false.
Proof.
  revert st. induction fuel as [|fuel IH]; intros st Hne; cbn [dealerLoop];
    destruct (lt (calculateScore (dealerHand st)) (Int 17)) eqn:E;
    intros Hrun; unfold mret, M_ret, outOfFuel in Hrun; simplify_eq.
  1, 3: exists []; split_and!;
          [apply dealerDrew_nil | done | simpl; lia | done].
  unfold mbind, M_bind in *.
  destruct (dealerDraw_spec st Hne) as (st1 & c & Hdraw & Hdrew & Hc).
  rewrite Hdraw in Hrun.
  pose proof Hdrew as (Hp1 & _ & Hh1 & _).
  rewrite <- Hh1 in Hrun. apply IH in Hrun as (draws & Hdrew' & Hin & Hpre & Hfin).
  - exists (c :: draws). split_and!.
    + apply (dealerDrew_app [c] draws _ _ _ Hdrew Hdrew').
    + constructor; [done|]. eapply Forall_impl; [exact Hin|].
      intros x Hx. by rewrite <- Hp1.
    + intros [|n] Hn.
      * by rewrite take_0, app_nil_r.
      * simpl in Hn. rewrite <- (Hpre n ltac:(lia)), Hh1, <- app_assoc. done.
    + done.
  - intros Hnil. rewrite Hnil in Hp1. by apply Permutation_nil_l in Hp1.
Qed.

(** On deck cards the loop is over within [17 - hardTotal] passes: each
    card adds at least one to the hard total, which the score never
    falls below. *)
Lemma dealerLoop_terminates (fuel : nat) st :
  deck st <> [] ->
  Forall deckCard (deck st) ->
  Forall deckCard (dealerHand st) ->
  17 - hardTotal (dealerHand st) <= Z.of_nat fuel ->
  exists st',
    dealerLoop fuel (calculateScore (dealerHand st)) st = Ok tt st'.
Proof.
  revert st. induction fuel as [|fuel IH]; intros st Hne Hdeck Hhand Hfuel;
    destruct (calculateScore_Int _ Hhand) as (s & Hs & (Hlo & _) & _);
    rewrite Hs; cbn [dealerLoop lt];
    (destruct (s <? 17) eqn:E;
       [apply Z.ltb_lt in E | apply Z.ltb_ge in E]); try lia;
    try by eexists.
  unfold mbind, M_bind.
  destruct (dealerDraw_spec st Hne) as (st1 & c & -> & Hdrew & Hc).
  destruct Hdrew as (Hp1 & _ & Hh1 & _).
  assert (Hcd : deckCard c)
    by exact (proj1 (Forall_forall _ _) Hdeck c Hc).
  rewrite <- Hh1. apply IH.
  - intros Hnil. rewrite Hnil in Hp1. by apply Permutation_nil_l in Hp1.
  - by rewrite Hp1.
  - rewrite Hh1. apply Forall_app. split; [done | by constructor].
  - rewrite Hh1, hardTotal_app. pose proof (hardTotal_card c Hcd). lia.
Qed.

Lemma playerStand_over (fuel : nat) st :
  gameOver st = true -> playerStand fuel st = Ok tt st.
Proof. intros Hgo. unfold playerStand. unfold_M. by rewrite Hgo. Qed.

(** A finished [playerStand] on a round that was on: the loop from the
    state [st] (up to the page), then [handleRoundEnd]. *)
Lemma playerStand_run (fuel : nat) st st' :
  gameOver st = false ->
  deck st <> [] ->
  playerStand fuel st = Ok tt st' ->
  exists sLoop draws,
    dealerDrew draws st sLoop /\
    Forall (fun c => c ∈ deck st) draws /\
    (forall n : nat, (n < length draws)%nat ->
       lt (calculateScore (dealerHand st ++ take n draws)) (Int 17) = true) /\
    lt (calculateScore (dealerHand sLoop)) (Int 17) = false /\
    handleRoundEnd sLoop = Ok tt st'.
Proof.
  intros Hgo Hne. unfold playerStand.
  unfold mbind at 1, M_bind at 1, get at 1. rewrite Hgo.
  unfold mbind at 1, M_bind at 1, renderTable, modify.
  unfold mbind at 1, M_bind at 1, get at 1.
  unfold mbind at 1, M_bind at 1.
  match goal with |- context [dealerLoop fuel (calculateScore (dealerHand ?s0)) ?s1] =>
    destruct (dealerLoop fuel (calculateScore (dealerHand s0)) s1)
      as [[] sLoop| |] eqn:Hloop; [|done..];
    apply (dealerLoop_run fuel s0 sLoop) in Hloop
      as (draws & Hdrew & Hin & Hpre & Hfin); [|done]
  end.
  intros Hend. exists sLoop, draws. by split_and!.
Qed.

Lemma playerStand_terminates (fuel : nat) st :
  gameOver st = false ->
  deck st <> [] ->
  Forall deckCard (deck st) ->
  Forall deckCard (dealerHand st) ->
  (17 <= fuel)%nat ->
  exists st', playerStand fuel st = Ok tt st'.
Proof.
  intros Hgo Hne Hdeck Hhand Hfuel. unfold playerStand.
  unfold mbind at 1, M_bind at 1, get at 1. rewrite Hgo.
  unfold mbind at 1, M_bind at 1, renderTable, modify.
  unfold mbind at 1, M_bind at 1, get at 1.
  unfold mbind at 1, M_bind at 1.
  match goal with |- context [dealerLoop fuel (calculateScore (dealerHand ?s0)) ?s1] =>
    destruct (dealerLoop_terminates fuel s0) as (sLoop & Hloop);
      [done | done | done | |]
  end.
  { pose proof (hardTotal_nonneg _ Hhand). simpl_state. lia. }
  rewrite Hloop.
  destruct (handleRoundEnd_frame sLoop) as (st' & -> & _). by exists st'.
Qed.

(** Timers that fire while no call is suspended find nothing to
    resume. *)
Lemma events_idle (k : nat) st :
  events (replicate k timerFires) 0%nat st = Ok 0%nat st.
Proof. induction k as [|k IH]; [done|]. simpl. unfold_M. exact IH. Qed.

(** The loop of [playerStand] and the [handleRoundEnd] after it, against
    the same code cut at the [await]s. *)
Lemma dealerLoop_events (k : nat) (d : num) st st' :
  (dealerLoop k d;; handleRoundEnd) st = Ok tt st' <->
  (suspended ← (if lt d (Int 17) then mret true
                else handleRoundEnd;; mret false);
   events (replicate k timerFires)
     (if suspended : bool then 1 else 0)%nat) st = Ok 0%nat st'.
Proof.
  revert d st. induction k as [|k IH]; intros d st;
    cbn [dealerLoop replicate events]; destruct (lt d (Int 17)) eqn:E.
  - unfold mbind, M_bind, mret, M_ret, outOfFuel. by split.
  - unfold mbind, M_bind, mret, M_ret.
    destruct (handleRoundEnd_frame st) as (s & -> & _).
    split; intros; by simplify_eq.
  - cbn [onEvent]. unfold playerStandResume.
    unfold mbind, M_bind, mret, M_ret in *.
    destruct (dealerDraw st) as [d' s1| |] eqn:Hd; [|by split..].
    rewrite (IH d' s1).
    destruct (lt d' (Int 17)); [done|].
    by destruct (handleRoundEnd s1) as [[] s2| |].
  - unfold mbind, M_bind, mret, M_ret.
    destruct (handleRoundEnd_frame st) as (s & -> & _).
    cbn [onEvent]. unfold mret, M_ret. rewrite (events_idle k s).
    split; intros; by simplify_eq.
Qed.

(** A run of [playerStand] that finishes is the click followed by
    firings of its timer alone, and conversely. *)
Lemma playerStand_standAlone (k : nat) st st' :
  playerStand k st = Ok tt st' <-> standAlone k st = Ok 0%nat st'.
Proof.
  unfold standAlone. cbn [events onEvent replicate].
  unfold playerStand, playerStandCall.
  pose proof (dealerLoop_events k) as HL.
  unfold mbind, M_bind, mret, M_ret, get, renderTable, modify in *.
  destruct (gameOver st) eqn:Hgo.
  - cbv beta iota. rewrite (events_idle k st).
    split; intros; by simplify_eq.
  - cbv beta iota.
    match goal with |- context [dealerLoop k ?d ?s0] =>
        rewrite (HL d s0 st')
    end.
    destruct (lt _ _); [done|].
    by destruct (handleRoundEnd _) as [[] s2| |].
Qed.

(** X21. A call of [playerStand] on a round that is not over, with a
    deck of deck cards and nothing else happening on the page during its
    waits (the click, then firings of its timer alone): after at most
    17 firings the call has ended.  The dealer's hand has grown by the
    cards [draws], taken one per pass; before each draw the dealer's
    hand scored less than 17, so no card is drawn at 17 or more; and
    when the loop has ended the dealer's score is at least 17. *)
Theorem stand_alone_dealer_rule st (k : nat) :
  gameOver st = false ->
  deck st <> [] ->
  Forall deckCard (deck st) ->
  Forall deckCard (dealerHand st) ->
  (17 <= k)%nat ->
  exists st' draws,
    standAlone k st = Ok 0%nat st' /\
    dealerHand st' = dealerHand st ++ draws /\
    playerHand st' = playerHand st /\
    Forall deckCard draws /\
    (forall n : nat, (n < length draws)%nat ->
       exists s, calculateScore (dealerHand st ++ take n draws) = Int s /\
                 s < 17) /\
    (exists s, calculateScore (dealerHand st') = Int s /\ 17 <= s) /\
    gameOver st' = true.
Proof.
  intros Hgo Hne Hdeck Hhand Hfuel.
  destruct (playerStand_terminates k st) as (st' & Hrun); try done.
  destruct (playerStand_run k st st' Hgo Hne Hrun)
    as (sLoop & draws & Hdrew & Hin & Hpre & Hfin & Hend).
  destruct Hdrew as (_ & _ & Hh & Hpl & _).
  destruct (handleRoundEnd_frame sLoop)
    as (st'' & Hend' & Hgo' & _ & _ & Hpl' & Hh' & _).
  rewrite Hend in Hend'. simplify_eq.
  assert (Hdraws : Forall deckCard draws).
  { eapply Forall_impl; [exact Hin|]. intros c Hc.
    exact (proj1 (Forall_forall _ _) Hdeck c Hc). }
  apply playerStand_standAlone in Hrun.
  exists st'', draws. rewrite Hh', Hpl', Hh, Hpl.
  split_and!; try done.
  - intros n Hn.
    destruct (calculateScore_Int (dealerHand st ++ take n draws))
      as (s & Hs & _).
    { apply Forall_app. split; [done | by apply Forall_take]. }
    exists s. split; [done|]. specialize (Hpre n Hn).
    rewrite Hs in Hpre. by apply Z.ltb_lt in Hpre.
  - destruct (calculateScore_Int (dealerHand st ++ draws)) as (s & Hs & _).
    { by apply Forall_app. }
    exists s. split; [done|]. rewrite Hh, Hs in Hfin.
    by apply Z.ltb_ge in Hfin.
Qed.

(** C2. The script does not keep the rule when stand is clicked
    again while the dealer's turn is under way.  The page is loaded
    into the first deal of the sample game: the player holds 2 and 4,
    the dealer 3 and 5.  Stand is clicked twice before a timer fires
    (the button is still enabled), then the timers of the two suspended
    calls fire: one call draws the 6, the other draws the 7, finds the
    dealer at 21 and ends the round.  The first call is still
    suspended; when its timer fires it draws the 8 although the
    dealer's hand scores 21, leaving the dealer at 29, and the round is
    resolved a second time. *)
Theorem second_stand_draws_at_21 :
  pageLoad (emptyState samplePage sampleRandom) = Ok tt sampleDealt /\
  dealerHand sampleDealt
  = [mkCard "3" "♣" (Int 3); mkCard "5" "♣" (Int 5)] /\
  canHappenAll [clickStand; clickStand; timerFires; timerFires; timerFires]
    0 sampleDealt = true /\
  events [clickStand; clickStand; timerFires; timerFires] 0 sampleDealt
  = Ok 1%nat sampleTwoStands /\
  dealerHand sampleTwoStands
  = [mkCard "3" "♣" (Int 3); mkCard "5" "♣" (Int 5);
     mkCard "6" "♣" (Int 6); mkCard "7" "♣" (Int 7)] /\
  calculateScore (dealerHand sampleTwoStands) = Int 21 /\
  gameOver sampleTwoStands = true /\
  (wins sampleTwoStands, losses sampleTwoStands) = (0%nat, 1%nat) /\
  onEvent timerFires 1 sampleTwoStands = Ok 0%nat sampleThirdTimer /\
  dealerHand sampleThirdTimer
  = dealerHand sampleTwoStands ++ [mkCard "8" "♣" (Int 8)] /\
  calculateScore (dealerHand sampleThirdTimer) = Int 29 /\
  (wins sampleThirdTimer, losses sampleThirdTimer) = (1%nat, 1%nat).
Proof.
  split_and!; vm_compute; reflexivity.
Qed.

End DealerTurn.

(** ** Starting a round *)

Section NewGame.

Implicit Types (st : State).

Local Arguments createCardEl : simpl never.
Local Arguments calculateScore : simpl never.

(** The state [startNewGame] reaches before it looks at the player's
    score: four deals from positions [deckIndex st + i] (modulo 52) for
    [i = 0 .. 3], from the old deck up to position 51 and from the
    reshuffled deck after it. *)
Lemma startNewGame_deals st :
  length (deck st) = 52 ->
  deckIndex st <= 52 ->
  exists sMid c1 c2 c3 c4,
    startNewGame st
    = (if strictEq (calculateScore [c1; c3]) (Int 21%Z)
       then handleRoundEnd sMid else Ok tt sMid) /\
    playerHand sMid = [c1; c3] /\
    dealerHand sMid = [c2; c4] /\
    deck sMid ≡ₚ deck st /\
    (deckIndex st + 4 <= 52 -> deck sMid = deck st) /\
    (forall i c, [c1; c2; c3; c4] !! i = Some c ->
       (if deckIndex st + i <? 52 then deck st else deck sMid)
         !! ((deckIndex st + i) `mod` 52) = Some c) /\
    deckIndex sMid = S ((deckIndex st + 3) `mod` 52) /\
    gameOver sMid = false /\
    wins sMid = wins st /\ losses sMid = losses st /\
    busts sMid = busts st /\
    els_dealerHand (els sMid) = [cardBack; createCardEl c4 false] /\
    els_dealerScore (els sMid) = None /\
    els_playerHand (els sMid)
    = [createCardEl c1 false; createCardEl c3 false].
Proof.
  intros Hlen Hidx. unfold startNewGame. unfold_M.
  cbn -[createCardEl Nat.modulo Nat.ltb]. rewrite Hlen. cbn -[createCardEl Nat.modulo Nat.ltb].
  match goal with |- context [dealCard ?s0] =>
    destruct (dealCard_spec s0)
      as (d1 & r1 & p1 & c1 & -> & Hp1 & Hc1 & Hi1)
  end; [by cbn; intros E; rewrite E in Hlen|].
  cbn -[createCardEl Nat.modulo Nat.ltb] in *.
  pose proof (Permutation_length Hp1) as Hl1.
  match goal with |- context [dealCard ?s0] =>
    destruct (dealCard_spec s0)
      as (d2 & r2 & p2 & c2 & -> & Hp2 & Hc2 & Hi2)
  end; [by cbn; intros E; rewrite E, Hlen in Hl1|].
  cbn -[createCardEl Nat.modulo Nat.ltb] in *.
  pose proof (Permutation_length Hp2) as Hl2.
  match goal with |- context [dealCard ?s0] =>
    destruct (dealCard_spec s0)
      as (d3 & r3 & p3 & c3 & -> & Hp3 & Hc3 & Hi3)
  end; [by cbn; intros E; rewrite E, Hl1, Hlen in Hl2|].
  cbn -[createCardEl Nat.modulo Nat.ltb] in *.
  pose proof (Permutation_length Hp3) as Hl3.
  match goal with |- context [dealCard ?s0] =>
    destruct (dealCard_spec s0)
      as (d4 & r4 & p4 & c4 & -> & Hp4 & Hc4 & Hi4)
  end; [by cbn; intros E; rewrite E, Hl2, Hl1, Hlen in Hl3|].
  cbn -[createCardEl Nat.modulo Nat.ltb] in *.
  pose proof (Permutation_length Hp4) as Hl4.
  eexists _, c1, c2, c3, c4.
  split; [by destruct (strictEq _ _)|].
  simpl_state. rewrite Hlen in *.
  assert (Hcases :
    (deckIndex st + 4 <= 52 /\ d1 = deck st /\ d2 = deck st /\
     d3 = deck st /\ d4 = deck st /\ p1 = deckIndex st /\
     p2 = S p1 /\ p3 = S p2 /\ p4 = S p3) \/
    (deckIndex st = 49 /\ d1 = deck st /\ d2 = deck st /\
     d3 = deck st /\ p1 = 49 /\ p2 = 50 /\ p3 = 51 /\ p4 = 0) \/
    (deckIndex st = 50 /\ d1 = deck st /\ d2 = deck st /\
     d4 = d3 /\ p1 = 50 /\ p2 = 51 /\ p3 = 0 /\ p4 = 1) \/
    (deckIndex st = 51 /\ d1 = deck st /\ d3 = d2 /\
     d4 = d2 /\ p1 = 51 /\ p2 = 0 /\ p3 = 1 /\ p4 = 2) \/
    (deckIndex st = 52 /\ d2 = d1 /\ d3 = d1 /\
     d4 = d1 /\ p1 = 0 /\ p2 = 1 /\ p3 = 2 /\ p4 = 3)).
  { repeat case_decide; destruct_and?; subst; try lia;
      rewrite ?Hl1, ?Hl2, ?Hl3, ?Hlen in *; try lia.
    all: first [ left; split_and!; first [done | lia]
               | right; left; split_and!; first [done | lia]
               | do 2 right; left; split_and!; first [done | lia]
               | do 3 right; left; split_and!; first [done | lia]
               | do 4 right; split_and!; first [done | lia] ]. }
  clear Hi1 Hi2 Hi3 Hi4.
  assert (Hperm : d4 ≡ₚ deck st) by (by rewrite Hp4, Hp3, Hp2).
  split_and!; try done.
  - intros Hno. destruct Hcases as [H|[H|[H|[H|H]]]];
      destruct_and?; subst; first [done | lia].
  - intros i c Hi.
    destruct Hcases as [H|[H|[H|[H|H]]]]; destruct_and?; subst.
    2-5: match goal with He : deckIndex _ = _ |- _ => rewrite He end;
      by destruct i as [|[|[|[|i]]]]; simplify_eq /=.
    assert (Hi4 : i < 4) by (by apply lookup_lt_Some in Hi).
    rewrite Nat.mod_small by lia.
    destruct (Nat.ltb_spec (deckIndex st + i) 52); [|lia].
    destruct i as [|[|[|[|i]]]]; simplify_eq /=; try lia;
      rewrite ?Nat.add_0_r, ?Nat.add_1_r; try done.
    + by replace (deckIndex st + 2) with (S (S (deckIndex st))) by lia.
    + by replace (deckIndex st + 3)
        with (S (S (S (deckIndex st)))) by lia.
  - destruct Hcases as [H|[H|[H|[H|H]]]]; destruct_and?; subst;
      try (match goal with He : deckIndex _ = _ |- _ => by rewrite He end).
    rewrite Nat.mod_small by lia. lia.
Qed.

(** C7. From a 52-card deck [startNewGame] finishes with the player
    holding exactly the first and third dealt cards and the dealer the
    second and fourth.  Deal [i] (from 0) takes the card at position
    [deckIndex + i] modulo 52, from the deck as it was while that
    position is below 52 and from the reshuffled deck once the count has
    wrapped.  Unless the round ended at once on a player score of 21,
    the dealer's first card is shown as a card back and the second face
    up, and when it did, both are shown face up.  In general
    [renderTable] with the flag off shows the dealer's first card as a
    card back and the others face up, and with the flag on shows all of
    them face up.  A card shown face up is the card face at the
    column of its rank and the row of its suit, which is not the card
    back. *)
Theorem startNewGame_deal_order st :
  length (deck st) = 52 ->
  deckIndex st <= 52 ->
  exists st' c1 c2 c3 c4,
    startNewGame st = Ok tt st' /\
    playerHand st' = [c1; c3] /\
    dealerHand st' = [c2; c4] /\
    (forall i c, [c1; c2; c3; c4] !! i = Some c ->
       (if deckIndex st + i <? 52 then deck st else deck st')
         !! ((deckIndex st + i) `mod` 52) = Some c) /\
    deckIndex st' = S ((deckIndex st + 3) `mod` 52) /\
    (gameOver st' = true <-> calculateScore [c1; c3] = Int 21%Z) /\
    (gameOver st' = false ->
       els_dealerHand (els st')
       = [cardBack; cardFace (ranksMap !! rank c4) (suitsMap !! suit c4)] /\
       els_dealerScore (els st') = None) /\
    (gameOver st' = true ->
       els_dealerHand (els st')
       = [cardFace (ranksMap !! rank c2) (suitsMap !! suit c2);
          cardFace (ranksMap !! rank c4) (suitsMap !! suit c4)]) /\
    (forall s c h, dealerHand s = c :: h ->
       exists s', renderTable false s = Ok tt s' /\
         els_dealerHand (els s')
         = cardBack
           :: map (fun c => cardFace (ranksMap !! rank c)
                              (suitsMap !! suit c)) h) /\
    (forall s,
       exists s', renderTable true s = Ok tt s' /\
         els_dealerHand (els s')
         = map (fun c => cardFace (ranksMap !! rank c)
                           (suitsMap !! suit c)) (dealerHand s)).
Proof.
  intros Hlen Hidx.
  destruct (startNewGame_deals st Hlen Hidx)
    as (sMid & c1 & c2 & c3 & c4 & Hrun & Hph & Hdh & Hperm & Hsame & Hpos
        & Hix & Hgo & _ & _ & _ & Hview & Hscore & _).
  assert (Hrender1 : forall s c h, dealerHand s = c :: h ->
    exists s', renderTable false s = Ok tt s' /\
      els_dealerHand (els s')
      = cardBack :: map (fun c => createCardEl c false) h).
  { intros s c h Hs. eexists. split; [reflexivity|]. simpl_state.
    rewrite Hs, imap_cons. f_equal.
    rewrite <- (imap_const (fun c => createCardEl c false)).
    by apply imap_ext. }
  assert (Hrender2 : forall s,
    exists s', renderTable true s = Ok tt s' /\
      els_dealerHand (els s')
      = map (fun c => createCardEl c false) (dealerHand s)).
  { intros s. eexists. split; [reflexivity|]. simpl_state.
    apply imap_reveal. }
  destruct (strictEq (calculateScore [c1; c3]) (Int 21%Z)) eqn:E.
  - apply strictEq_Int in E.
    destruct (handleRoundEnd_frame sMid)
      as (st' & Hend & Hgo' & Hd' & Hi' & Hp' & Hh' & Hv' & _).
    exists st', c1, c2, c3, c4. rewrite Hrun, Hend, Hp', Hh', Hd', Hi', Hgo'.
    rewrite Hv', Hdh. by split_and!.
  - exists sMid, c1, c2, c3, c4. rewrite Hrun, Hgo.
    split_and!; try done.
    split; [done|]. intros E'. apply strictEq_Int in E'. congruence.
Qed.


End NewGame.

(** ** Invariants of the reachable states *)

Section Reachable.

Implicit Types (st : State).

Lemma Inv_deck_cards st : Inv st -> Forall deckCard (deck st).
Proof.
  intros (Hp & _). apply Forall_forall. intros c Hc.
  unfold deckCard. by rewrite <- Hp.
Qed.

Lemma Inv_length st : Inv st -> length (deck st) = 52.
Proof. intros (Hp & _). by rewrite Hp. Qed.

Lemma Inv_nonempty st : Inv st -> deck st <> [].
Proof. intros H E. apply Inv_length in H. by rewrite E in H. Qed.

Lemma loadScript_Inv (e : Els) (rnd : nat -> nat) st :
  loadScript (emptyState e rnd) = Ok tt st -> Inv st.
Proof.
  unfold loadScript, createDeck. unfold_M.
  match goal with |- context [shuffleDeck ?s0] =>
    destruct (shuffleDeck_spec s0) as (d' & rnd' & -> & Hp)
  end.
  intros [= <-]. unfold Inv. simpl_state. simpl_state in Hp.
  split_and!; [done | lia | done | done].
Qed.

Lemma handleRoundEnd_Inv st st' :
  Inv st -> handleRoundEnd st = Ok tt st' -> Inv st'.
Proof.
  intros (Hp & Hi & Hph & Hdh) Hrun.
  destruct (handleRoundEnd_frame st)
    as (st'' & Hrun' & _ & Hd & Hix & Hp' & Hh' & _).
  rewrite Hrun in Hrun'. simplify_eq.
  unfold Inv. by rewrite Hd, Hix, Hp', Hh'.
Qed.

Lemma startNewGame_Inv st st' :
  Inv st -> startNewGame st = Ok tt st' -> Inv st'.
Proof.
  intros HI Hrun. pose proof (Inv_length st HI) as Hlen.
  pose proof (Inv_deck_cards st HI) as Hdeck.
  destruct HI as (Hp & Hi & _ & _). rewrite Hlen in Hi.
  destruct (startNewGame_deals st Hlen Hi)
    as (sMid & c1 & c2 & c3 & c4 & Hrun' & Hph & Hdh & Hperm & _ & Hpos
        & Hix & _).
  assert (Hdeck' : Forall deckCard (deck sMid)) by (by rewrite Hperm).
  assert (Hcards : forall i c, [c1; c2; c3; c4] !! i = Some c -> deckCard c).
  { intros i c Hc. specialize (Hpos i c Hc).
    apply list_elem_of_lookup_2 in Hpos.
    destruct (deckIndex st + i <? 52);
      [exact (proj1 (Forall_forall _ _) Hdeck c Hpos)
      |exact (proj1 (Forall_forall _ _) Hdeck' c Hpos)]. }
  assert (HI : Inv sMid).
  { unfold Inv. rewrite Hph, Hdh, Hix, Hperm, Hlen.
    split_and!; [done | | |].
    - pose proof (Nat.mod_upper_bound (deckIndex st + 3) 52). lia.
    - apply Forall_cons_2; [by apply (Hcards 0)|].
      apply Forall_cons_2; [by apply (Hcards 2) | done].
    - apply Forall_cons_2; [by apply (Hcards 1)|].
      apply Forall_cons_2; [by apply (Hcards 3) | done]. }
  rewrite Hrun' in Hrun.
  destruct (strictEq _ _); [by eapply handleRoundEnd_Inv | by simplify_eq].
Qed.

Lemma playerHit_Inv st st' :
  Inv st -> playerHit st = Ok tt st' -> Inv st'.
Proof.
  intros HI Hrun. destruct (gameOver st) eqn:Hgo.
  { rewrite playerHit_over in Hrun by done. by simplify_eq. }
  destruct (playerHit_run st Hgo (Inv_nonempty st HI))
    as (st'' & c & Hrun' & Hp & Hin & Hix & Hph & Hdh & _).
  rewrite Hrun in Hrun'. simplify_eq.
  pose proof (Inv_deck_cards st HI) as Hdeck.
  destruct HI as (Hp0 & _ & Hph0 & Hdh0).
  unfold Inv. rewrite Hph, Hdh. split_and!; try done.
  - by rewrite Hp.
  - apply Forall_app. split; [done|]. apply Forall_cons_2; [|done].
    exact (proj1 (Forall_forall _ _) Hdeck c Hin).
Qed.

Lemma playerStand_Inv (fuel : nat) st st' :
  Inv st -> playerStand fuel st = Ok tt st' -> Inv st'.
Proof.
  intros HI Hrun. destruct (gameOver st) eqn:Hgo.
  { rewrite playerStand_over in Hrun by done. by simplify_eq. }
  destruct (playerStand_run fuel st st' Hgo (Inv_nonempty st HI) Hrun)
    as (sLoop & draws & Hdrew & Hin & _ & _ & Hend).
  apply (handleRoundEnd_Inv sLoop); [|done].
  pose proof (Inv_deck_cards st HI) as Hdeck.
  destruct HI as (Hp0 & Hi0 & Hph0 & Hdh0).
  destruct Hdrew as (Hp & Hix & Hdh & Hph & _).
  unfold Inv. rewrite Hph, Hdh. split_and!; try done.
  - by rewrite Hp.
  - by apply Hix.
  - apply Forall_app. split; [done|].
    eapply Forall_impl; [exact Hin|]. intros c Hc.
    exact (proj1 (Forall_forall _ _) Hdeck c Hc).
Qed.

Lemma handler_Inv (ev : Call) st st' :
  Inv st -> handler ev st = Ok tt st' -> Inv st'.
Proof.
  destruct ev; simpl.
  - apply startNewGame_Inv.
  - apply playerHit_Inv.
  - apply playerStand_Inv.
Qed.

Lemma reachable_Inv (e : Els) (rnd : nat -> nat) st :
  reachable e rnd st -> Inv st.
Proof.
  induction 1 as [st Hload | ev st st' _ IH Hrun].
  - by eapply loadScript_Inv.
  - by eapply handler_Inv.
Qed.

Lemma played_reachable (e : Els) (rnd : nat -> nat) st :
  played e rnd st -> reachable e rnd st.
Proof.
  induction 1 as [st Hload | ev st st' _ IH _ Hrun].
  - by apply reach_load.
  - by eapply reach_call.
Qed.

Lemma clicks_played (e : Els) (rnd : nat -> nat) (evs : list Call) st st' :
  played e rnd st -> clicks evs st = Some st' -> played e rnd st'.
Proof.
  revert st. induction evs as [|ev evs IH]; intros st Hst; simpl.
  - by intros [= <-].
  - destruct (buttonEnabled ev st) eqn:Hen; [|done].
    destruct (handler ev st) as [[] s1| |] eqn:Hrun; [|done..].
    apply IH. by eapply played_click.
Qed.

End Reachable.

(** ** The single deck *)

Section SingleDeck.

Implicit Types (st : State).

Lemma dealCard_deck st (c : Card) st' :
  dealCard st = Ok c st' ->
  deck st' ≡ₚ deck st /\ c ∈ deck st /\
  deckIndex st' <= length (deck st').
Proof.
  intros Hrun. destruct (decide (deck st = [])) as [E|Hne].
  { by rewrite dealCard_empty in Hrun. }
  destruct (dealCard_spec st Hne)
    as (d' & rnd' & p & c' & Hrun' & Hp & Hc & _).
  rewrite Hrun in Hrun'. simplify_eq. simpl_state.
  split_and!; [done | |].
  - rewrite <- Hp. by apply list_elem_of_lookup_2 in Hc.
  - apply lookup_lt_Some in Hc. lia.
Qed.

Lemma dealCard_reshuffles st :
  deck st <> [] ->
  length (deck st) <= deckIndex st ->
  exists c st',
    dealCard st = Ok c st' /\
    deck st' ≡ₚ deck st /\
    deck st' !! 0 = Some c /\
    deckIndex st' = 1.
Proof.
  intros Hne Hall.
  destruct (dealCard_spec st Hne)
    as (d' & rnd' & p & c & Hrun & Hp & Hc & Hcase).
  rewrite decide_False in Hcase by lia. subst p.
  exists c. eexists. split; [exact Hrun|]. by simpl_state.
Qed.

(** The sample play ends in the middle of a round, the player holding
    the king of spades twice. *)
Lemma samplePlay_hands :
  (fun s => (gameOver s, playerHand s, dealerHand s))
    <$> clicks samplePlay sampleLoaded
  = Some (false,
          [mkCard "K" "♠" (Int 10); mkCard "K" "♠" (Int 10)],
          [mkCard "A" "♠" (Int 11); mkCard "3" "♣" (Int 3)]).
Proof. vm_compute. reflexivity. Qed.

(** C4. [createDeck] makes the deck the 52 cards of the pairs of the 4
    suits and 13 ranks, one card per pair.  When every position has
    been dealt, [dealCard] deals from position 0 of a permutation of
    that same deck.  [shuffleDeck] and [dealCard] keep the length of
    the deck, and in every reachable state that length is 52. *)
Theorem single_deck :
  (forall st, exists st',
     createDeck st = Ok tt st' /\
     length (deck st') = 52 /\
     map (fun c => (suit c, rank c)) (deck st') = list_prod suits ranks) /\
  length suits = 4 /\ length ranks = 13 /\
  NoDup (list_prod suits ranks) /\
  (forall st, deck st <> [] -> length (deck st) <= deckIndex st ->
     exists c st',
       dealCard st = Ok c st' /\
       deck st' ≡ₚ deck st /\
       deck st' !! 0 = Some c /\ deckIndex st' = 1) /\
  (forall st, exists st',
     shuffleDeck st = Ok tt st' /\ length (deck st') = length (deck st)) /\
  (forall st c st',
     dealCard st = Ok c st' -> length (deck st') = length (deck st)) /\
  (forall e rnd st, reachable e rnd st -> length (deck st) = 52).
Proof.
  split_and!.
  - intros st. eexists. split; [reflexivity|]. by simpl_state.
  - done.
  - done.
  - apply (bool_decide_unpack _). by vm_compute.
  - apply dealCard_reshuffles.
  - intros st. destruct (shuffleDeck_spec st) as (d' & rnd' & -> & Hp).
    eexists. split; [reflexivity|]. simpl_state. by rewrite Hp.
  - intros st c st' Hrun. apply dealCard_deck in Hrun as (Hp & _).
    by rewrite Hp.
  - intros e rnd st Hst. by apply Inv_length, (reachable_Inv e rnd).
Qed.

(** C8. Dealing leaves every card in the deck: a deal changes the deck
    by a permutation at most, and in every reachable state the deck is
    a permutation of the 52 cards of [createDeck].  A reshuffle inside
    [dealCard] hence puts cards that are in the hands back among the
    cards to deal, and there is a reachable state, reached by clicks on
    enabled buttons and with the round still on, in which one card is
    at two places among the cards of the two hands. *)
Theorem dealt_cards_stay_in_deck :
  (forall st c st', dealCard st = Ok c st' -> deck st' ≡ₚ deck st) /\
  (forall e rnd st, reachable e rnd st -> deck st ≡ₚ createDeck_cards) /\
  (forall st, deck st <> [] -> length (deck st) <= deckIndex st ->
     exists c st',
       dealCard st = Ok c st' /\ deck st' ≡ₚ deck st /\
       deck st' !! 0 = Some c /\ deckIndex st' = 1) /\
  (exists e rnd st,
     played e rnd st /\ reachable e rnd st /\ gameOver st = false /\
     exists (i j : nat) (c : Card),
       i <> j /\
       (playerHand st ++ dealerHand st) !! i = Some c /\
       (playerHand st ++ dealerHand st) !! j = Some c).
Proof.
  split_and!.
  - intros st c st' Hrun. by apply dealCard_deck in Hrun as (Hp & _).
  - intros e rnd st Hst. by apply (reachable_Inv e rnd) in Hst as (Hp & _).
  - apply dealCard_reshuffles.
  - pose proof samplePlay_hands as Hhands.
    destruct (clicks samplePlay sampleLoaded) as [st|] eqn:Hplay;
      [|discriminate Hhands].
    assert (Hst : played samplePage sampleRandom st).
    { apply (clicks_played _ _ samplePlay sampleLoaded); [|exact Hplay].
      apply played_load. vm_compute. reflexivity. }
    clear Hplay. injection Hhands as Hgo Hph Hdh.
    exists samplePage, sampleRandom, st.
    split; [exact Hst|]. split; [by apply played_reachable|].
    split; [exact Hgo|].
    exists 0, 1, (mkCard "K" "♠" (Int 10)). rewrite Hph, Hdh.
    split; [lia|]. split; reflexivity.
Qed.

End SingleDeck.

(** ** The counters *)

Section Counters.

Local Open Scope Z_scope.
Implicit Types (st : State) (p d : Z).

Lemma two_cards_score (a b : Card) (s : Z) :
  deckCard a -> deckCard b ->
  calculateScore [a; b] = Int s -> s <= 21.
Proof.
  intros Ha Hb Hs.
  destruct (calculateScore_Int [a; b]) as (s' & Hs' & _ & Hend).
  { by apply Forall_cons_2; [|apply Forall_cons_2]. }
  rewrite Hs in Hs'. simplify_eq.
  destruct Hend as [? | ->]; [done|].
  change [a; b] with ([a] ++ [b]). rewrite hardTotal_app.
  pose proof (hardTotal_card a Ha). pose proof (hardTotal_card b Hb). lia.
Qed.

(** What [handleRoundEnd] does to [losses] and [busts]. *)
Lemma handleRoundEnd_losses st st' p d :
  calculateScore (playerHand st) = Int p ->
  calculateScore (dealerHand st) = Int d ->
  handleRoundEnd st = Ok tt st' ->
  gameOver st' = true /\
  playerHand st' = playerHand st /\ dealerHand st' = dealerHand st /\
  (losses st' = S (losses st) \/ losses st' = losses st) /\
  (losses st' = S (losses st) <-> p <= 21 /\ d <= 21 /\ d > p) /\
  (p > 21 ->
     busts st' = S (busts st) /\ losses st' = losses st /\
     wins st' = wins st) /\
  els_lossCount (els st') = losses st' /\
  els_bustCount (els st') = busts st'.
Proof.
  intros Hp Hd Hrun.
  destruct (handleRoundEnd_cases st p d Hp Hd)
    as (st'' & Hrun' & Hgo & _ & _ & Hph & Hdh & _ & _ & _ & _ & _ & Hlc
        & Hbc & Hc).
  rewrite Hrun in Hrun'. simplify_eq.
  split_and!; try done.
  - destruct Hc as [(? & ? & ? & ? & ?) | [(? & ? & ? & ? & ? & ?) |
      [(? & ? & ? & ? & ? & ? & ?) | [(? & ? & ? & ? & ? & ? & ?) |
      (? & ? & ? & ? & ? & ? & ?)]]]]; auto.
  - destruct Hc as [(? & ? & ? & ? & ?) | [(? & ? & ? & ? & ? & ?) |
      [(? & ? & ? & ? & ? & ? & ?) | [(? & ? & ? & ? & ? & ? & ?) |
      (? & ? & ? & ? & ? & ? & ?)]]]]; split; intros; lia.
  - intros Hbust.
    destruct Hc as [(? & ? & ? & ? & ?) | [(? & ? & ? & ? & ? & ?) |
      [(? & ? & ? & ? & ? & ? & ?) | [(? & ? & ? & ? & ? & ? & ?) |
      (? & ? & ? & ? & ? & ? & ?)]]]]; first [done | lia].
Qed.

(** C9. A call of a handler, from a state that satisfies the
    invariant and, for [playerHit] and [playerStand], with the round
    on: with [p] and [d] the scores of the player and of the dealer
    afterwards, [losses] grows by one exactly when the call has ended
    the round with neither score above 21 and [d > p], and keeps its
    value otherwise.  When [p > 21] the round has ended, [busts] has
    grown by one and [losses] and [wins] have kept their values.  The
    loss count shown at the end of a round is [losses]. *)
Theorem losses_exclude_busts (ev : Call) st st' :
  Inv st ->
  (ev <> callStartNewGame -> gameOver st = false) ->
  handler ev st = Ok tt st' ->
  exists p d,
    calculateScore (playerHand st') = Int p /\
    calculateScore (dealerHand st') = Int d /\
    (losses st' = S (losses st) \/ losses st' = losses st) /\
    (losses st' = S (losses st) <->
       gameOver st' = true /\ p <= 21 /\ d <= 21 /\ d > p) /\
    (p > 21 ->
       gameOver st' = true /\ busts st' = S (busts st) /\
       losses st' = losses st /\ wins st' = wins st) /\
    (gameOver st' = true -> els_lossCount (els st') = losses st').
Proof.
  intros HI Hon Hrun.
  pose proof (handler_Inv ev st st' HI Hrun) as (_ & _ & Hph' & Hdh').
  destruct (calculateScore_Int _ Hph') as (p & Hp & _).
  destruct (calculateScore_Int _ Hdh') as (d & Hd & _).
  exists p, d. split; [done|]. split; [done|].
  pose proof (Inv_length st HI) as Hlen.
  destruct ev as [| |fuel]; simpl in Hrun.
  - (* startNewGame *)
    pose proof HI as (_ & Hix & _). rewrite Hlen in Hix.
    destruct (startNewGame_deals st Hlen Hix)
      as (sMid & c1 & c2 & c3 & c4 & Hrun' & Hph & Hdh & _ & _ & _ & _
          & Hgo & Hw & Hl & Hb & _).
    rewrite Hrun' in Hrun.
    destruct (strictEq _ _) eqn:E.
    + apply strictEq_Int in E.
      pose proof (handleRoundEnd_frame sMid)
        as (s' & Hs' & _ & _ & _ & Hph2 & Hdh2 & _).
      rewrite Hrun in Hs'. simplify_eq.
      rewrite Hph2 in Hp. rewrite Hdh2 in Hd.
      destruct (handleRoundEnd_losses sMid s' p d Hp Hd Hrun)
        as (Hgo' & _ & _ & Hor & Hiff & Hbust & Hlc & _).
      rewrite Hl in Hor, Hiff, Hbust. rewrite Hb, Hw in Hbust.
      split_and!; try done.
      * rewrite Hiff. split; [by intros (? & ? & ?) | by intros (_ & ?)].
      * intros Hbust'. by destruct (Hbust Hbust') as (? & ? & ?).
    + simplify_eq. rewrite Hph in Hp, Hph'.
      apply Forall_cons in Hph' as (Hc1 & Hph').
      apply Forall_cons in Hph' as (Hc3 & _).
      pose proof (two_cards_score c1 c3 p Hc1 Hc3 Hp).
      rewrite Hgo, Hl. split_and!; try done.
      all: first [by right | split; [lia | by intros (? & _)] | intros; lia].
  - (* playerHit *)
    specialize (Hon ltac:(done)).
    destruct (playerHit_run st Hon (Inv_nonempty st HI))
      as (s' & c & Hrun' & _ & _ & _ & Hph & _ & Hw & Hl & Hc).
    rewrite Hrun in Hrun'. simplify_eq.
    rewrite Hph in Hp. rewrite Hp in Hc. cbn [gt] in Hc.
    destruct (21 <? p) eqn:E;
      [apply Z.ltb_lt in E | apply Z.ltb_ge in E].
    + destruct Hc as (Hgo' & Hb & _ & _ & _ & _ & _ & Hlc & _).
      rewrite Hl. split_and!; try done.
      all: first [by right | split; [lia | intros; lia]
                 | intros _; congruence].
    + destruct Hc as (Hgo' & Hb & _).
      rewrite Hl, Hgo'. split_and!; try done.
      all: first [by right | split; [lia | by intros (? & _)] | intros; lia].
  - (* playerStand *)
    specialize (Hon ltac:(done)).
    destruct (playerStand_run fuel st st' Hon (Inv_nonempty st HI) Hrun)
      as (sLoop & draws & Hdrew & _ & _ & _ & Hend).
    destruct Hdrew as (_ & _ & _ & _ & _ & Hw & Hl & Hb).
    pose proof (handleRoundEnd_frame sLoop)
      as (s' & Hs' & _ & _ & _ & Hph2 & Hdh2 & _).
    rewrite Hend in Hs'. simplify_eq.
    rewrite Hph2 in Hp. rewrite Hdh2 in Hd.
    destruct (handleRoundEnd_losses sLoop s' p d Hp Hd Hend)
      as (Hgo' & _ & _ & Hor & Hiff & Hbust & Hlc & _).
    rewrite Hl in Hor, Hiff, Hbust. rewrite Hb, Hw in Hbust.
    split_and!; try done.
    + rewrite Hiff. split; [by intros (? & ? & ?) | by intros (_ & ?)].
    + intros Hbust'. by destruct (Hbust Hbust') as (? & ? & ?).
Qed.

End Counters.

(** ** Worked instances *)

Section Instances.

Local Open Scope Z_scope.

Lemma sampleLoaded_deck : deck sampleLoaded = createDeck_cards.
Proof. by vm_compute. Qed.

Lemma sampleDealt_deck : deck sampleDealt = createDeck_cards.
Proof. by vm_compute. Qed.



Lemma deckCards_check (l : list Card) :
  forallb deckCardb l = true -> Forall deckCard l.
Proof.
  intros H. apply Forall_forall. intros c Hc.
  apply deckCardb_spec. rewrite forallb_forall in H.
  apply H. by apply list_elem_of_In.
Qed.

Lemma sampleDealt_Inv : Inv sampleDealt.
Proof.
  unfold Inv. rewrite sampleDealt_deck. split_and!.
  - done.
  - vm_compute. lia.
  - apply deckCards_check. by vm_compute.
  - apply deckCards_check. by vm_compute.
Qed.

Lemma sampleDealt_on : gameOver sampleDealt = false.
Proof. by vm_compute. Qed.

Lemma sampleDealt_nonempty : deck sampleDealt <> [].
Proof. by rewrite sampleDealt_deck. Qed.

(** The hand of two aces and a nine scores 21: one ace is lowered. *)
Lemma calculateScore_spec_witness :
  Forall deckCard sampleHand /\
  exists (s : Z) (k : nat),
    calculateScore sampleHand = Int s /\
    (k <= aceCount sampleHand)%nat /\
    s = softTotal sampleHand - 10 * Z.of_nat k /\
    (s <= 21 \/ k = aceCount sampleHand) /\
    (forall k' : nat,
       (k' < k)%nat -> softTotal sampleHand - 10 * Z.of_nat k' > 21) /\
    ((exists v, v ∈ valuations sampleHand /\ v <= 21) ->
       s ∈ valuations sampleHand /\ s <= 21 /\
       forall v, v ∈ valuations sampleHand -> v <= 21 -> v <= s) /\
    ((forall v, v ∈ valuations sampleHand -> v > 21) ->
       s = hardTotal sampleHand).
Proof.
  assert (H : Forall deckCard sampleHand)
    by (apply deckCards_check; by vm_compute).
  split; [exact H | exact (calculateScore_spec sampleHand H)].
Defined.

(** After the first deal of the sample game the dealer holds 3 and 5;
    standing makes the dealer draw. *)
Lemma stand_alone_dealer_rule_witness :
  gameOver sampleDealt = false /\
  deck sampleDealt <> [] /\
  Forall deckCard (deck sampleDealt) /\
  Forall deckCard (dealerHand sampleDealt) /\
  (17 <= 17)%nat /\
  exists st' draws,
    standAlone 17 sampleDealt = Ok 0%nat st' /\
    dealerHand st' = dealerHand sampleDealt ++ draws /\
    playerHand st' = playerHand sampleDealt /\
    Forall deckCard draws /\
    (forall n : nat, (n < length draws)%nat ->
       exists s,
         calculateScore (dealerHand sampleDealt ++ take n draws) = Int s /\
         s < 17) /\
    (exists s, calculateScore (dealerHand st') = Int s /\ 17 <= s) /\
    gameOver st' = true.
Proof.
  pose proof sampleDealt_on as H1.
  pose proof sampleDealt_nonempty as H2.
  pose proof (Inv_deck_cards _ sampleDealt_Inv) as H3.
  pose proof sampleDealt_Inv as (_ & _ & _ & H4).
  assert (H5 : (17 <= 17)%nat) by lia.
  split_and!; [done.. |].
  exact (stand_alone_dealer_rule sampleDealt 17 H1 H2 H3 H4 H5).
Defined.

(** The first deal of the sample game: player 6, dealer 8. *)
Lemma handleRoundEnd_classifies_witness :
  calculateScore (playerHand sampleDealt) = Int 6 /\
  calculateScore (dealerHand sampleDealt) = Int 8 /\
  exists st' o,
    handleRoundEnd sampleDealt = Ok tt st' /\
    announced (els_msgText (els st')) = Some o /\
    (o = Lose <-> 6 > 21 \/ (6 <= 21 /\ 8 <= 21 /\ 8 > 6)) /\
    (o = Win <-> 6 <= 21 /\ (8 > 21 \/ 6 > 8)) /\
    (o = Push <-> 6 <= 21 /\ 8 <= 21 /\ 6 = 8) /\
    (o = Push ->
       wins st' = wins sampleDealt /\ losses st' = losses sampleDealt /\
       busts st' = busts sampleDealt) /\
    (o <> Push ->
       (wins st' = S (wins sampleDealt) /\
        losses st' = losses sampleDealt /\
        busts st' = busts sampleDealt) \/
       (wins st' = wins sampleDealt /\
        losses st' = S (losses sampleDealt) /\
        busts st' = busts sampleDealt) \/
       (wins st' = wins sampleDealt /\
        losses st' = losses sampleDealt /\
        busts st' = S (busts sampleDealt))) /\
    els_winCount (els st') = wins st' /\
    els_lossCount (els st') = losses st' /\
    els_bustCount (els st') = busts st'.
Proof.
  assert (Hp : calculateScore (playerHand sampleDealt) = Int 6)
    by (by vm_compute).
  assert (Hd : calculateScore (dealerHand sampleDealt) = Int 8)
    by (by vm_compute).
  split_and!; [done.. |].
  exact (handleRoundEnd_classifies sampleDealt 6 8 Hp Hd).
Defined.

(** A hit after the first deal of the sample game. *)
Lemma playerHit_spec_witness :
  gameOver sampleDealt = false /\
  deck sampleDealt <> [] /\
  Forall deckCard (deck sampleDealt) /\
  Forall deckCard (playerHand sampleDealt) /\
  exists st' c s,
    playerHit sampleDealt = Ok tt st' /\
    playerHand st' = playerHand sampleDealt ++ [c] /\
    dealerHand st' = dealerHand sampleDealt /\
    calculateScore (playerHand st') = Int s /\
    wins st' = wins sampleDealt /\ losses st' = losses sampleDealt /\
    (gameOver st' = true <-> s > 21) /\
    (s > 21 ->
       busts st' = S (busts sampleDealt) /\
       els_btnHit_disabled (els st') = true /\
       els_btnStand_disabled (els st') = true /\
       announced (els_msgText (els st')) = Some Lose /\
       els_bustCount (els st') = busts st') /\
    (s <= 21 ->
       gameOver st' = false /\ busts st' = busts sampleDealt /\
       els_btnHit_disabled (els st')
       = els_btnHit_disabled (els sampleDealt) /\
       els_btnStand_disabled (els st')
       = els_btnStand_disabled (els sampleDealt) /\
       els_winCount (els st') = els_winCount (els sampleDealt) /\
       els_lossCount (els st') = els_lossCount (els sampleDealt) /\
       els_bustCount (els st') = els_bustCount (els sampleDealt)).
Proof.
  pose proof sampleDealt_on as H1.
  pose proof sampleDealt_nonempty as H2.
  pose proof (Inv_deck_cards _ sampleDealt_Inv) as H3.
  pose proof sampleDealt_Inv as (_ & _ & H4 & _).
  split_and!; [done.. |].
  exact (playerHit_spec sampleDealt H1 H2 H3 H4).
Defined.

(** The first deal of the sample game. *)
Lemma startNewGame_deal_order_witness :
  length (deck sampleLoaded) = 52%nat /\
  (deckIndex sampleLoaded <= 52)%nat /\
  exists st' c1 c2 c3 c4,
    startNewGame sampleLoaded = Ok tt st' /\
    playerHand st' = [c1; c3] /\
    dealerHand st' = [c2; c4] /\
    (forall i c, [c1; c2; c3; c4] !! i = Some c ->
       (if (deckIndex sampleLoaded + i <? 52)%nat
        then deck sampleLoaded else deck st')
         !! ((deckIndex sampleLoaded + i) `mod` 52)%nat = Some c) /\
    deckIndex st' = S ((deckIndex sampleLoaded + 3) `mod` 52)%nat /\
    (gameOver st' = true <-> calculateScore [c1; c3] = Int 21) /\
    (gameOver st' = false ->
       els_dealerHand (els st')
       = [cardBack; cardFace (ranksMap !! rank c4) (suitsMap !! suit c4)] /\
       els_dealerScore (els st') = None) /\
    (gameOver st' = true ->
       els_dealerHand (els st')
       = [cardFace (ranksMap !! rank c2) (suitsMap !! suit c2);
          cardFace (ranksMap !! rank c4) (suitsMap !! suit c4)]) /\
    (forall s c h, dealerHand s = c :: h ->
       exists s', renderTable false s = Ok tt s' /\
         els_dealerHand (els s')
         = cardBack
           :: map (fun c => cardFace (ranksMap !! rank c)
                              (suitsMap !! suit c)) h) /\
    (forall s,
       exists s', renderTable true s = Ok tt s' /\
         els_dealerHand (els s')
         = map (fun c => cardFace (ranksMap !! rank c)
                           (suitsMap !! suit c)) (dealerHand s)).
Proof.
  assert (H1 : length (deck sampleLoaded) = 52%nat)
    by (by rewrite sampleLoaded_deck).
  assert (H2 : (deckIndex sampleLoaded <= 52)%nat) by (vm_compute; lia).
  split_and!; [done.. |].
  exact (startNewGame_deal_order sampleLoaded H1 H2).
Defined.

Lemma sampleTwoHits_Inv : Inv sampleTwoHits.
Proof.
  unfold Inv.
  assert (Hd : deck sampleTwoHits = createDeck_cards) by (by vm_compute).
  rewrite Hd. split_and!.
  - done.
  - vm_compute. lia.
  - apply deckCards_check. by vm_compute.
  - apply deckCards_check. by vm_compute.
Qed.

(** The third hit after the first deal of the sample game takes the
    player from 19 to 27, a bust; and standing on that first deal loses
    the round, 6 against the dealer's 21. *)
Lemma losses_exclude_busts_witness :
  (Inv sampleTwoHits /\
   (callPlayerHit <> callStartNewGame -> gameOver sampleTwoHits = false) /\
   handler callPlayerHit sampleTwoHits = Ok tt sampleBust /\
   calculateScore (playerHand sampleBust) = Int 27 /\
   exists p d,
     calculateScore (playerHand sampleBust) = Int p /\
     calculateScore (dealerHand sampleBust) = Int d /\
     (losses sampleBust = S (losses sampleTwoHits) \/
      losses sampleBust = losses sampleTwoHits) /\
     (losses sampleBust = S (losses sampleTwoHits) <->
        gameOver sampleBust = true /\ p <= 21 /\ d <= 21 /\ d > p) /\
     (p > 21 ->
        gameOver sampleBust = true /\
        busts sampleBust = S (busts sampleTwoHits) /\
        losses sampleBust = losses sampleTwoHits /\
        wins sampleBust = wins sampleTwoHits) /\
     (gameOver sampleBust = true ->
        els_lossCount (els sampleBust) = losses sampleBust)) /\
  (Inv sampleDealt /\
   (callPlayerStand 17 <> callStartNewGame -> gameOver sampleDealt = false) /\
   handler (callPlayerStand 17) sampleDealt = Ok tt sampleStood /\
   calculateScore (playerHand sampleStood) = Int 6 /\
   calculateScore (dealerHand sampleStood) = Int 21 /\
   exists p d,
     calculateScore (playerHand sampleStood) = Int p /\
     calculateScore (dealerHand sampleStood) = Int d /\
     (losses sampleStood = S (losses sampleDealt) \/
      losses sampleStood = losses sampleDealt) /\
     (losses sampleStood = S (losses sampleDealt) <->
        gameOver sampleStood = true /\ p <= 21 /\ d <= 21 /\ d > p) /\
     (p > 21 ->
        gameOver sampleStood = true /\
        busts sampleStood = S (busts sampleDealt) /\
        losses sampleStood = losses sampleDealt /\
        wins sampleStood = wins sampleDealt) /\
     (gameOver sampleStood = true ->
        els_lossCount (els sampleStood) = losses sampleStood)).
Proof.
  pose proof sampleTwoHits_Inv as H1.
  assert (H2 : callPlayerHit <> callStartNewGame ->
               gameOver sampleTwoHits = false)
    by (intros _; vm_compute; reflexivity).
  assert (H3 : handler callPlayerHit sampleTwoHits = Ok tt sampleBust)
    by (vm_compute; reflexivity).
  assert (H4 : calculateScore (playerHand sampleBust) = Int 27)
    by (vm_compute; reflexivity).
  pose proof sampleDealt_Inv as K1.
  assert (K2 : callPlayerStand 17 <> callStartNewGame ->
               gameOver sampleDealt = false)
    by (intros _; exact sampleDealt_on).
  assert (K3 : handler (callPlayerStand 17) sampleDealt = Ok tt sampleStood)
    by (vm_compute; reflexivity).
  assert (K4 : calculateScore (playerHand sampleStood) = Int 6)
    by (vm_compute; reflexivity).
  assert (K5 : calculateScore (dealerHand sampleStood) = Int 21)
    by (vm_compute; reflexivity).
  split.
  - split_and!; [exact H1 | exact H2 | exact H3 | exact H4 |].
    exact (losses_exclude_busts callPlayerHit sampleTwoHits sampleBust
             H1 H2 H3).
  - split_and!; [exact K1 | exact K2 | exact K3 | exact K4 | exact K5 |].
    exact (losses_exclude_busts (callPlayerStand 17) sampleDealt sampleStood
             K1 K2 K3).
Defined.


End Instances.

(** * Further properties *)

(** ** The states the handlers leave *)

Section HandlerStates.

Local Open Scope Z_scope.
Implicit Types (st : State).

Lemma imap_hide (h : list Card) :
  imap (fun (index : nat) c =>
          if (index =? 0)%nat && negb false
          then createCardEl c true else createCardEl c false) h
  = match h with
    | [] => []
    | _ :: h' => cardBack :: map faceUp h'
    end.
Proof.
  destruct h as [|c h]; [done|].
  rewrite imap_cons. f_equal.
  rewrite <- (imap_const faceUp). by apply imap_ext.
Qed.

(** The five branches of [handleRoundEnd], whatever the scores. *)
Lemma handleRoundEnd_state st :
  let p := calculateScore (playerHand st) in
  let d := calculateScore (dealerHand st) in
  handleRoundEnd st
  = Ok tt
      (if gt p (Int 21) then
         roundEnded "BUST! You lose." "#ff4444" "lose"
           (wins st) (losses st) (S (busts st)) st
       else if gt d (Int 21) then
         roundEnded "Dealer BUSTS! You Win!" "#4CAF50" "win"
           (S (wins st)) (losses st) (busts st) st
       else if gt p d then
         roundEnded "You Win!" "#4CAF50" "win"
           (S (wins st)) (losses st) (busts st) st
       else if gt d p then
         roundEnded "Dealer Wins." "#ff4444" "lose"
           (wins st) (S (losses st)) (busts st) st
       else
         roundEnded "Push (Tie)." "#fff" "chip"
           (wins st) (losses st) (busts st) st).
Proof.
  intros p d. subst p d. unfold handleRoundEnd. unfold_M.
  destruct (gt (calculateScore (playerHand st)) (Int 21));
  [|destruct (gt (calculateScore (dealerHand st)) (Int 21));
  [|destruct (gt (calculateScore (playerHand st))
               (calculateScore (dealerHand st)));
  [|destruct (gt (calculateScore (dealerHand st))
               (calculateScore (playerHand st)))]]];
  cbn beta iota; unfold roundEnded; f_equal; simpl_state;
  by rewrite imap_reveal.
Qed.

(** [playerHit] with the round on: the deal, the table redrawn, and the
    resolution as a bust when the new score exceeds 21. *)
Lemma playerHit_state st :
  gameOver st = false ->
  deck st <> [] ->
  exists d' rnd' (p : nat) c,
    let s1 :=
      mkState d' (playerHand st ++ [c]) (dealerHand st) false (S p)
        (wins st) (losses st) (busts st)
        (roundView (playerHand st ++ [c]) (dealerHand st) (els st))
        rnd' (sounds st ++ ["card"]) in
    playerHit st
    = Ok tt
        (if gt (calculateScore (playerHand st ++ [c])) (Int 21)
         then roundEnded "BUST! You lose." "#ff4444" "lose"
                (wins st) (losses st) (S (busts st)) s1
         else s1) /\
    d' ≡ₚ deck st /\
    d' !! p = Some c /\
    (if decide (deckIndex st < length (deck st))%nat
     then d' = deck st /\ rnd' = Math_random st /\ p = deckIndex st
     else p = 0%nat).
Proof.
  intros Hgo Hne. unfold playerHit. unfold_M. rewrite Hgo.
  match goal with |- context [dealCard ?s0] =>
    destruct (dealCard_spec s0)
      as (d' & rnd' & p & c & -> & Hp & Hc & Hcase)
  end; [done|].
  simpl_state in Hp. simpl_state in Hcase.
  exists d', rnd', p, c. cbn zeta. split_and!; try done.
  simpl_state.
  destruct (gt (calculateScore (playerHand st ++ [c])) (Int 21));
    cbn beta iota; unfold roundEnded, roundView; f_equal; simpl_state;
    rewrite ?imap_reveal, ?imap_hide; [reflexivity|].
  unfold set_els, set_playerHand. simpl_state. by rewrite Hgo.
Qed.

(** [startNewGame] from any state: a deck is made first if there is
    none, four cards are dealt, and the round is resolved at once on a
    player score of 21. *)
Lemma startNewGame_state st :
  exists d' rnd' (p : nat) c1 c2 c3 c4,
    let sMid :=
      mkState d' [c1; c3] [c2; c4] false (S p)
        (wins st) (losses st) (busts st)
        (roundView [c1; c3] [c2; c4] (roundPage (els st)))
        rnd' ((sounds st ++ ["chip"]) ++ ["card"]) in
    startNewGame st
    = (if strictEq (calculateScore [c1; c3]) (Int 21)
       then handleRoundEnd sMid else Ok tt sMid) /\
    d' ≡ₚ (if decide (deck st = []) then createDeck_cards else deck st) /\
    Forall (fun c => c ∈ d') [c1; c2; c3; c4] /\
    (p < length d')%nat.
Proof.
  unfold startNewGame. unfold_M. simpl_state.
  set (s0 := set_els _ _).
  match goal with |- context [match ?t s0 with _ => _ end] =>
    set (prep := t s0)
  end.
  assert (Hprep : exists s1,
    prep = Ok tt s1 /\
    deck s1 ≡ₚ (if decide (deck st = []) then createDeck_cards else deck st)
    /\ deck s1 <> [] /\
    playerHand s1 = [] /\ dealerHand s1 = [] /\ gameOver s1 = false /\
    wins s1 = wins st /\ losses s1 = losses st /\ busts s1 = busts st /\
    els s1 = roundPage (els st) /\ sounds s1 = sounds st ++ ["chip"]).
  { subst prep. destruct (deck st) as [|c0 d0] eqn:Hd.
    - cbn [length Nat.eqb]. unfold createDeck, modify.
      cbn beta iota.
      match goal with |- context [shuffleDeck ?s] =>
        destruct (shuffleDeck_spec s) as (d' & rnd' & -> & Hp)
      end.
      eexists. split; [reflexivity|]. simpl_state. simpl_state in Hp.
      rewrite decide_True by done. split_and!; try done.
      intros E. rewrite E in Hp. by apply Permutation_nil_l in Hp.
    - cbn [length Nat.eqb]. cbn beta iota.
      exists s0. split; [done|].
      subst s0. simpl_state. rewrite Hd, decide_False by done.
      by split_and!. }
  destruct Hprep as (s1 & Hprep & Hp0 & Hne0 & Hph0 & Hdh0 & Hgo0 & Hw0
                     & Hl0 & Hb0 & He0 & Hs0).
  clearbody prep. subst prep. clear s0.
  destruct s1 as [dk ph dh go ix w l b e r sn].
  simpl in Hp0, Hne0, Hph0, Hdh0, Hgo0, Hw0, Hl0, Hb0, He0, Hs0. subst.
  match goal with |- context [dealCard ?s] =>
    destruct (dealCard_spec s)
      as (d1 & r1 & p1 & c1 & -> & Hp1 & Hc1 & _)
  end; [done|].
  simpl_state in Hp1.
  match goal with |- context [dealCard ?s] =>
    destruct (dealCard_spec s)
      as (d2 & r2 & p2 & c2 & -> & Hp2 & Hc2 & _)
  end.
  { simpl_state. intros E. rewrite E in Hp1.
    apply Permutation_nil_l in Hp1. by symmetry in Hp1. }
  simpl_state in Hp2.
  match goal with |- context [dealCard ?s] =>
    destruct (dealCard_spec s)
      as (d3 & r3 & p3 & c3 & -> & Hp3 & Hc3 & _)
  end.
  { simpl_state. intros E. rewrite E in Hp2.
    apply Permutation_nil_l in Hp2. rewrite <- Hp2 in Hp1.
    apply Permutation_nil_l in Hp1. by symmetry in Hp1. }
  simpl_state in Hp3.
  match goal with |- context [dealCard ?s] =>
    destruct (dealCard_spec s)
      as (d4 & r4 & p4 & c4 & -> & Hp4 & Hc4 & _)
  end.
  { simpl_state. intros E. rewrite E in Hp3.
    apply Permutation_nil_l in Hp3. rewrite <- Hp3 in Hp2.
    apply Permutation_nil_l in Hp2. rewrite <- Hp2 in Hp1.
    apply Permutation_nil_l in Hp1. by symmetry in Hp1. }
  simpl_state in Hp4.
  exists d4, r4, p4, c1, c2, c3, c4. cbn zeta. simpl_state.
  split_and!.
  - rewrite imap_hide. by destruct (strictEq _ _).
  - by rewrite Hp4, Hp3, Hp2, Hp1.
  - apply list_elem_of_lookup_2 in Hc1, Hc2, Hc3, Hc4.
    repeat apply Forall_cons_2; try done.
    + by rewrite Hp4, Hp3, Hp2.
    + by rewrite Hp4, Hp3.
    + by rewrite Hp4.
  - by apply lookup_lt_Some in Hc4.
Qed.

End HandlerStates.

(** ** More on scoring *)

Section MoreScoring.

Local Open Scope Z_scope.

Lemma softTotal_Permutation (h h' : list Card) :
  h ≡ₚ h' -> softTotal h = softTotal h'.
Proof.
  induction 1 as [|c h h' _ IH|c1 c2 h|h1 h2 h3 _ IH1 _ IH2]; simpl.
  - done.
  - fold (softTotal h) (softTotal h'). lia.
  - lia.
  - congruence.
Qed.

Lemma aceCount_Permutation (h h' : list Card) :
  h ≡ₚ h' -> aceCount h = aceCount h'.
Proof. intros Hp. unfold aceCount. by rewrite Hp. Qed.

(** X1. The score of a hand of deck cards does not depend on the
    order in which the cards were dealt. *)
Theorem calculateScore_Permutation (h h' : list Card) :
  Forall deckCard h ->
  h ≡ₚ h' ->
  calculateScore h = calculateScore h'.
Proof.
  intros Hh Hp. assert (Hh' : Forall deckCard h') by (by rewrite <- Hp).
  unfold calculateScore.
  rewrite (tally_deckCards h Hh), (tally_deckCards h' Hh').
  by rewrite (softTotal_Permutation h h' Hp), (aceCount_Permutation h h' Hp).
Qed.

(** X2. A hand of deck cards scores above 21 exactly when its total
    with every ace counted as 1 is above 21. *)
Theorem bust_iff_hardTotal (hand : list Card) :
  Forall deckCard hand ->
  exists s : Z,
    calculateScore hand = Int s /\ (s > 21 <-> hardTotal hand > 21).
Proof.
  intros Hh. destruct (calculateScore_Int hand Hh) as (s & Hs & Hb & Hend).
  exists s. split; [done|]. lia.
Qed.

(** The score after one more card: no more than ten above the old
    score, unless it is 21 or less anyway. *)
Lemma calculateScore_snoc (h : list Card) (c : Card) (s : Z) :
  Forall deckCard h -> deckCard c ->
  calculateScore h = Int s ->
  exists s', calculateScore (h ++ [c]) = Int s' /\
             (s' <= 21 \/ s' <= s + 10) /\ hardTotal h + 1 <= s'.
Proof.
  intros Hh Hc Hs.
  destruct (calculateScore_Int h Hh) as (s0 & Hs0 & Hb0 & _).
  rewrite Hs in Hs0. simplify_eq.
  destruct (calculateScore_Int (h ++ [c])) as (s' & Hs' & Hb' & Hend').
  { apply Forall_app. split; [done | by apply Forall_cons_2]. }
  rewrite hardTotal_app in Hb', Hend'.
  pose proof (hardTotal_card c Hc).
  exists s'. split; [done|]. lia.
Qed.

(** X3. One more card on a hand of deck cards that scores 11 or less
    never takes it above 21. *)
Theorem hit_on_eleven_is_safe (h : list Card) (c : Card) (s : Z) :
  Forall deckCard h -> deckCard c ->
  calculateScore h = Int s -> s <= 11 ->
  exists s', calculateScore (h ++ [c]) = Int s' /\ s' <= 21.
Proof.
  intros Hh Hc Hs Hle.
  destruct (calculateScore_snoc h c s Hh Hc Hs) as (s' & Hs' & Hb & _).
  exists s'. split; [done | lia].
Qed.

Lemma two_cards_by_rank (a b : Card) :
  calculateScore [a; b]
  = calculateScore [mkCard (rank a) "" (value a);
                    mkCard (rank b) "" (value b)].
Proof. by destruct a, b. Qed.

Lemma natural_check :
  forallb (fun ra =>
    forallb (fun rb =>
      Bool.eqb
        (strictEq (calculateScore [mkCard ra "" (rankValue ra);
                                   mkCard rb "" (rankValue rb)]) (Int 21))
        ((String.eqb ra "A" && tenValued rb)
         || (String.eqb rb "A" && tenValued ra)))
      ranks) ranks = true.
Proof. by vm_compute. Qed.

Lemma rankValue_blackjackValue (r : string) :
  r ∈ ranks -> rankValue r = Int (blackjackValue r).
Proof.
  assert (H : Forall (fun r => rankValue r = Int (blackjackValue r)) ranks)
    by (unfold ranks; repeat constructor).
  intros Hr. exact (proj1 (Forall_forall _ _) H r Hr).
Qed.

Lemma deckCard_rankValue (c : Card) :
  deckCard c -> value c = rankValue (rank c).
Proof.
  intros Hc. rewrite (deckCard_value c Hc).
  symmetry. by apply rankValue_blackjackValue, deckCard_rank.
Qed.

(** X4. Two deck cards score exactly 21 if and only if one is an
    ace and the other counts ten (10, J, Q or K). *)
Theorem natural_twenty_one (a b : Card) :
  deckCard a -> deckCard b ->
  (calculateScore [a; b] = Int 21 <->
   (isAce a = true /\ tenValued (rank b) = true) \/
   (isAce b = true /\ tenValued (rank a) = true)).
Proof.
  intros Ha Hb. rewrite two_cards_by_rank.
  rewrite (deckCard_rankValue a Ha), (deckCard_rankValue b Hb).
  pose proof natural_check as Hall. rewrite forallb_forall in Hall.
  specialize (Hall (rank a)). rewrite forallb_forall in Hall.
  specialize (Hall (proj1 (list_elem_of_In _ _) (deckCard_rank a Ha))
                   (rank b)
                   (proj1 (list_elem_of_In _ _) (deckCard_rank b Hb))).
  apply Bool.eqb_prop in Hall. rewrite <- strictEq_Int, Hall.
  unfold isAce. rewrite orb_true_iff, !andb_true_iff. done.
Qed.

End MoreScoring.

(** ** More on the shuffle *)

Section MoreShuffle.

Implicit Types (d : list Card) (st : State).

Lemma shuffleLoop_random (i : nat) st :
  exists st',
    shuffleLoop i st = Ok tt st' /\
    length (deck st') = length (deck st) /\
    forall k, Math_random st' k = Math_random st (i + k).
Proof.
  revert st. induction i as [|i IH]; intros st.
  - by exists st.
  - cbn [shuffleLoop]. unfold mbind, M_bind, floorRandom, modify.
    match goal with |- context [shuffleLoop i ?s] =>
      destruct (IH s) as (st' & -> & Hlen & Hrnd) end.
    exists st'. split; [done|]. split.
    + rewrite Hlen. simpl_state. unfold swap.
      destruct (deck st !! S i); [|done]. destruct (deck st !! _); [|done].
      by rewrite !length_insert.
    + intros k. rewrite Hrnd. simpl_state.
      by replace (S i + k) with (S (i + k)) by lia.
Qed.

(** X5. [shuffleDeck] draws one random number for each position of
    the deck but the first: afterwards the pending randomness is the old
    one without its first [deck.length - 1] outcomes.  On a deck of at
    most one card nothing is drawn and the deck is left as it is. *)
Theorem shuffleDeck_random st :
  exists st',
    shuffleDeck st = Ok tt st' /\
    (forall k,
       Math_random st' k = Math_random st (length (deck st) - 1 + k)) /\
    (length (deck st) <= 1 -> deck st' = deck st).
Proof.
  unfold shuffleDeck, mbind, M_bind, get, modify.
  destruct (shuffleLoop_random (length (deck st) - 1) st)
    as (st' & Hrun & Hlen & Hrnd).
  rewrite Hrun. eexists. split; [reflexivity|]. simpl_state.
  split; [exact Hrnd|]. intros Hle.
  replace (length (deck st) - 1) with 0 in Hrun by lia.
  cbn [shuffleLoop] in Hrun. unfold mret, M_ret in Hrun. by simplify_eq.
Qed.

Lemma swap_lookup_l (i j : nat) d (a x : Card) :
  d !! i = Some a -> d !! j = Some x -> j <= i ->
  swap i j d !! i = Some x.
Proof.
  intros Hi Hj Hle. unfold swap. rewrite Hi, Hj.
  pose proof (lookup_lt_Some _ _ _ Hi).
  destruct (decide (j = i)) as [->|Hne].
  - rewrite list_lookup_insert_eq; [congruence|by rewrite length_insert].
  - rewrite list_lookup_insert_ne by done.
    by rewrite list_lookup_insert_eq.
Qed.

Lemma swap_drop (i j : nat) d :
  j <= i -> drop (S i) (swap i j d) = drop (S i) d.
Proof.
  intros Hle. unfold swap.
  destruct (d !! i); [|done]. destruct (d !! j); [|done].
  rewrite !drop_insert_lt by lia. done.
Qed.

Lemma swap_take (i j : nat) d (a x : Card) :
  d !! i = Some a -> d !! j = Some x -> j <= i ->
  take i (swap i j d) ++ [x] ≡ₚ take i d ++ [a].
Proof.
  intros Hi Hj Hle. unfold swap. rewrite Hi, Hj.
  destruct (decide (j = i)) as [->|Hne].
  - rewrite !take_insert_ge by lia. by simplify_eq.
  - rewrite take_insert_lt by lia. rewrite take_insert_ge by lia.
    rewrite <- !Permutation_cons_append.
    apply insert_head_Permutation.
    rewrite lookup_take_lt by lia. done.
Qed.

Lemma swap_length (i j : nat) d : length (swap i j d) = length d.
Proof.
  unfold swap. destruct (d !! i); [|done]. destruct (d !! j); [|done].
  by rewrite !length_insert.
Qed.

(** The loop from index [i] can bring the first [i + 1] cards into any
    order. *)
Lemma shuffleLoop_reaches (i : nat) d (target : list Card) :
  i < length d ->
  take (S i) target ≡ₚ take (S i) d ->
  drop (S i) target = drop (S i) d ->
  exists js,
    length js = i /\
    forall st rnd,
      deck st = d -> Math_random st = prepend js rnd ->
      exists st', shuffleLoop i st = Ok tt st' /\ deck st' = target.
Proof.
  revert d. induction i as [|i IH]; intros d Hlen Htake Hdrop.
  - exists []. split; [done|]. intros st rnd Hd _.
    exists st. split; [done|]. rewrite Hd.
    destruct d as [|x d]; [simpl in Hlen; lia|].
    destruct target as [|y target].
    { apply Permutation_nil_l in Htake. done. }
    simpl in Htake, Hdrop. rewrite !take_0 in Htake.
    apply Permutation_singleton_l in Htake. rewrite !drop_0 in Hdrop.
    congruence.
  - assert (Hlt : S i < length target).
    { apply Permutation_length in Htake.
      rewrite !length_take in Htake. lia. }
    destruct (lookup_lt_is_Some_2 target (S i) Hlt) as [x Hx].
    destruct (lookup_lt_is_Some_2 d (S i) Hlen) as [a Ha].
    assert (Hin : x ∈ take (S (S i)) d).
    { rewrite <- Htake. apply list_elem_of_lookup. exists (S i).
      rewrite lookup_take_lt by lia. done. }
    apply list_elem_of_lookup in Hin as [j Hj].
    pose proof (lookup_lt_Some _ _ _ Hj) as Hjlt.
    rewrite length_take in Hjlt.
    rewrite lookup_take_lt in Hj by lia.
    assert (Hjle : j <= S i) by lia.
    destruct (IH (swap (S i) j d)) as (js & Hjs & Hrun).
    + rewrite swap_length. lia.
    + rewrite (take_S_r target (S i) x Hx) in Htake.
      rewrite (take_S_r d (S i) a Ha) in Htake.
      rewrite <- (swap_take (S i) j d a x Ha Hj Hjle) in Htake.
      by apply Permutation_app_inv_r in Htake.
    + rewrite (drop_S target x (S i) Hx).
      rewrite (drop_S (swap (S i) j d) x (S i))
        by (by eapply swap_lookup_l).
      by rewrite swap_drop, Hdrop.
    + exists (j :: js). split; [simpl; lia|].
      intros st rnd Hd Hrnd. cbn [shuffleLoop].
      unfold mbind, M_bind, floorRandom, modify. rewrite Hrnd.
      cbn [prepend lookup list_lookup]. rewrite Nat.mod_small by lia.
      apply (Hrun _ rnd).
      * simpl_state. by rewrite Hd.
      * simpl_state. rewrite Hrnd. reflexivity.
Qed.

(** X6. Every ordering of the deck can come out of [shuffleDeck]:
    for each permutation [target] of the deck there are
    [deck.length - 1] random outcomes under which the shuffled deck is
    [target]. *)
Theorem shuffleDeck_reaches st (target : list Card) :
  target ≡ₚ deck st ->
  exists js,
    length js = length (deck st) - 1 /\
    forall rnd,
      exists st',
        shuffleDeck (set_Math_random (fun _ => prepend js rnd) st)
        = Ok tt st' /\
        deck st' = target /\ deckIndex st' = 0.
Proof.
  intros Hp. destruct (deck st) as [|x d] eqn:Hd.
  - exists []. split; [done|]. intros rnd. eexists.
    unfold shuffleDeck, mbind, M_bind, get, modify. simpl_state.
    rewrite Hd. cbn. split; [reflexivity|]. simpl_state.
    apply Permutation_nil_r in Hp. by rewrite Hd.
  - destruct (shuffleLoop_reaches (length d) (x :: d) target)
      as (js & Hjs & Hrun).
    + simpl. lia.
    + rewrite !take_ge; [done | simpl; lia |].
      apply Permutation_length in Hp. simpl in *. lia.
    + rewrite !drop_ge; [done | simpl; lia |].
      apply Permutation_length in Hp. simpl in *. lia.
    + exists js. split; [simpl; lia|]. intros rnd.
      unfold shuffleDeck, mbind, M_bind, get, modify. simpl_state.
      rewrite Hd.
      replace (length (x :: d) - 1) with (length d) by (simpl; lia).
      destruct (Hrun (set_Math_random (fun _ => prepend js rnd) st) rnd)
        as (st' & -> & Ht); [by simpl_state | done |].
      eexists. split; [reflexivity|]. by simpl_state.
Qed.

End MoreShuffle.

(** ** The page in the reachable states *)

Section Page.

Local Open Scope Z_scope.
Implicit Types (st : State).

Lemma roundEnded_inSync (text color sound : string) (w l b : nat) st :
  let st' := roundEnded text color sound w l b st in
  controlsInSync st' /\ statsInSync st' /\ tableInSync st' /\
  gameOver st' = true.
Proof. done. Qed.

(** What a finished call of a handler has done to the state: nothing;
    or ended the round; or left the round on with the table redrawn and
    the counters and their display untouched, the controls being either
    set for a round or untouched as well. *)
Lemma handler_effect (ev : Call) st st' :
  deck st <> [] ->
  handler ev st = Ok tt st' ->
  st' = st \/
  (exists text color sound w l b s,
     st' = roundEnded text color sound w l b s) \/
  (gameOver st' = false /\ tableInSync st' /\
   wins st' = wins st /\ losses st' = losses st /\ busts st' = busts st /\
   statsShown (els st') = statsShown (els st) /\
   (controlsInSync st' \/
    (gameOver st = false /\ controls (els st') = controls (els st)))).
Proof.
  intros Hne Hrun. destruct ev as [| |fuel]; simpl in Hrun.
  - destruct (startNewGame_state st)
      as (d' & rnd' & p & c1 & c2 & c3 & c4 & Hrun' & _).
    cbn zeta in Hrun'. rewrite Hrun' in Hrun.
    destruct (strictEq _ _).
    + rewrite handleRoundEnd_state in Hrun. simplify_eq.
      right; left. repeat destruct (gt _ _); by repeat eexists.
    + simplify_eq. right; right. split_and!; try done. by left.
  - destruct (gameOver st) eqn:Hgo.
    { rewrite playerHit_over in Hrun by done. left. by simplify_eq. }
    destruct (playerHit_state st Hgo Hne)
      as (d' & rnd' & p & c & Hrun' & _).
    cbn zeta in Hrun'. rewrite Hrun' in Hrun. simplify_eq.
    destruct (gt _ _).
    + right; left. by repeat eexists.
    + right; right. split_and!; try done. by right.
  - destruct (gameOver st) eqn:Hgo.
    { rewrite playerStand_over in Hrun by done. left. by simplify_eq. }
    destruct (playerStand_run fuel st st' Hgo Hne Hrun)
      as (sLoop & draws & _ & _ & _ & _ & Hend).
    rewrite handleRoundEnd_state in Hend. simplify_eq.
    right; left. repeat destruct (gt _ _); by repeat eexists.
Qed.

Lemma loadScript_state (e : Els) (rnd : nat -> nat) st :
  loadScript (emptyState e rnd) = Ok tt st ->
  els st = e /\ gameOver st = false /\
  playerHand st = [] /\ dealerHand st = [] /\
  wins st = 0%nat /\ losses st = 0%nat /\ busts st = 0%nat.
Proof.
  unfold loadScript, createDeck. unfold_M.
  match goal with |- context [shuffleDeck ?s0] =>
    destruct (shuffleDeck_spec s0) as (d' & rnd' & -> & Hp)
  end.
  intros [= <-]. by simpl_state.
Qed.

Lemma reachable_nonempty (e : Els) (rnd : nat -> nat) st :
  reachable e rnd st -> deck st <> [].
Proof. intros H. by apply Inv_nonempty, (reachable_Inv e rnd). Qed.

(** X7. After every call of a handler has run to its end, the
    buttons and the message overlay follow the round: hit and stand are
    disabled, new game enabled and the message shown exactly when the
    round is over.  The one exception is a page on which no round has
    been started or ended yet, whose controls are as the page had
    them. *)
Theorem controls_follow_round (e : Els) (rnd : nat -> nat) st :
  reachable e rnd st ->
  controlsInSync st \/
  (gameOver st = false /\ controls (els st) = controls e).
Proof.
  induction 1 as [st Hload | ev st st' Hst IH Hrun].
  - apply loadScript_state in Hload as (-> & Hgo & _). by right.
  - destruct (handler_effect ev st st' (reachable_nonempty e rnd st Hst) Hrun)
      as [-> | [(text & color & sound & w & l & b & s & ->) |
                (Hgo' & _ & _ & _ & _ & _ & [Hsync | (Hgo & Hc)])]].
    + done.
    + by left.
    + by left.
    + destruct IH as [Hsync | (_ & Huntouched)].
      * left. unfold controlsInSync in *. by rewrite Hc, Hsync, Hgo, Hgo'.
      * right. split; [done | congruence].
Qed.

(** X8. After every call of a handler has run to its end, the page
    shows the current values of the three counters, unless no round
    has ended yet: then the counters are all 0 and the page shows what
    it showed when it was loaded. *)
Theorem stats_shown_are_current (e : Els) (rnd : nat -> nat) st :
  reachable e rnd st ->
  statsInSync st \/
  (wins st = 0%nat /\ losses st = 0%nat /\ busts st = 0%nat /\
   statsShown (els st) = statsShown e).
Proof.
  induction 1 as [st Hload | ev st st' Hst IH Hrun].
  - apply loadScript_state in Hload as (-> & _ & _ & _ & ? & ? & ?).
    by right.
  - destruct (handler_effect ev st st' (reachable_nonempty e rnd st Hst) Hrun)
      as [-> | [(text & color & sound & w & l & b & s & ->) |
                (_ & _ & Hw & Hl & Hb & Hshown & _)]].
    + done.
    + by left.
    + destruct IH as [Hsync | (? & ? & ? & Huntouched)].
      * left. unfold statsInSync in *. by rewrite Hshown, Hsync, Hw, Hl, Hb.
      * right. split_and!; congruence.
Qed.

(** X9. After every call of a handler has run to its end, the page
    shows the player's hand face up with its score; while the round is
    on it shows the dealer's first card as a card back, the dealer's
    other cards face up and no dealer score, and once the round is over
    the whole dealer hand face up with its score.  A card shown face up
    is the card face at the column of its rank and the row of its suit,
    not the card back.  The one exception is a page on which nothing
    has been dealt yet. *)
Theorem table_shown_is_current (e : Els) (rnd : nat -> nat) st :
  reachable e rnd st ->
  tableInSync st \/
  (playerHand st = [] /\ dealerHand st = [] /\ gameOver st = false /\
   tableShown (els st) = tableShown e).
Proof.
  induction 1 as [st Hload | ev st st' Hst IH Hrun].
  - apply loadScript_state in Hload as (-> & ? & ? & ? & _). by right.
  - destruct (handler_effect ev st st' (reachable_nonempty e rnd st Hst) Hrun)
      as [-> | [(text & color & sound & w & l & b & s & ->) |
                (_ & Hsync & _)]].
    + done.
    + by left.
    + by left.
Qed.

End Page.

(** ** Rounds in the reachable states *)

Section Rounds.

Local Open Scope Z_scope.
Implicit Types (st : State).

(** X10. In a state reached by calls that each ran to the end, no
    handler fails: [startNewGame] and [playerHit] finish, and a call of
    [playerStand] during whose waits nothing else happens on the page
    (the click, then firings of its timer alone) has ended after at
    most 17 firings.  In particular [dealCard] never hands out
    [undefined]. *)
Theorem reachable_calls_finish (e : Els) (rnd : nat -> nat) st :
  reachable e rnd st ->
  (exists st', startNewGame st = Ok tt st') /\
  (exists st', playerHit st = Ok tt st') /\
  (forall k : nat, (17 <= k)%nat ->
     exists st', standAlone k st = Ok 0%nat st').
Proof.
  intros Hst. pose proof (reachable_Inv e rnd st Hst) as HI.
  pose proof (Inv_nonempty st HI) as Hne.
  pose proof (Inv_deck_cards st HI) as Hdeck.
  split_and!.
  - destruct (startNewGame_state st)
      as (d' & rnd' & p & c1 & c2 & c3 & c4 & Hrun & _).
    cbn zeta in Hrun. rewrite Hrun.
    destruct (strictEq _ _); [|by eexists].
    rewrite handleRoundEnd_state. by eexists.
  - destruct (gameOver st) eqn:Hgo.
    + exists st. by apply playerHit_over.
    + destruct (playerHit_run st Hgo Hne) as (st' & c & Hrun & _).
      by exists st'.
  - intros k Hk.
    assert (Hrun : exists st', playerStand k st = Ok tt st').
    { destruct (gameOver st) eqn:Hgo.
      - exists st. by apply playerStand_over.
      - destruct HI as (_ & _ & _ & Hdh).
        by apply playerStand_terminates. }
    destruct Hrun as (st' & Hrun). exists st'.
    by apply playerStand_standAlone.
Qed.

(** While the round is on, the player's score is at most 21. *)
Lemma reachable_player_score (e : Els) (rnd : nat -> nat) st :
  reachable e rnd st ->
  gameOver st = false ->
  exists p, calculateScore (playerHand st) = Int p /\ p <= 21.
Proof.
  induction 1 as [st Hload | ev st st' Hst IH Hrun]; intros Hgo'.
  - apply loadScript_state in Hload as (_ & _ & -> & _). by exists 0.
  - pose proof (reachable_Inv e rnd st Hst) as HI.
    pose proof (handler_Inv ev st st' HI Hrun) as (_ & _ & Hph' & _).
    destruct (calculateScore_Int _ Hph') as (p & Hp & _).
    exists p. split; [done|].
    destruct ev as [| |fuel]; simpl in Hrun.
    + destruct (startNewGame_state st)
        as (d' & rnd' & q & c1 & c2 & c3 & c4 & Hrun' & _).
      cbn zeta in Hrun'. rewrite Hrun' in Hrun.
      destruct (strictEq _ _).
      { rewrite handleRoundEnd_state in Hrun. simplify_eq.
        by repeat destruct (gt _ _). }
      simplify_eq. simpl in Hp, Hph'.
      apply Forall_cons in Hph' as (Hc1 & Hph').
      apply Forall_cons in Hph' as (Hc3 & _).
      by apply (two_cards_score c1 c3).
    + destruct (gameOver st) eqn:Hgo.
      { rewrite playerHit_over in Hrun by done. simplify_eq. congruence. }
      destruct (playerHit_state st Hgo (Inv_nonempty st HI))
        as (d' & rnd' & q & c & Hrun' & _).
      cbn zeta in Hrun'. rewrite Hrun' in Hrun. simplify_eq.
      destruct (gt _ _) eqn:E; [done|].
      simpl in Hp. rewrite Hp in E. simpl in E. by apply Z.ltb_ge in E.
    + destruct (gameOver st) eqn:Hgo.
      { rewrite playerStand_over in Hrun by done. simplify_eq. congruence. }
      destruct (playerStand_run fuel st st' Hgo (Inv_nonempty st HI) Hrun)
        as (sLoop & draws & _ & _ & _ & _ & Hend).
      rewrite handleRoundEnd_state in Hend. simplify_eq.
      by repeat destruct (gt _ _).
Qed.

(** X11. As long as every call has run to its end with nothing else
    happening on the page during its waits, a round that is on has a
    player score of at most 21.  From such a state [startNewGame] leaves
    [busts] as it is, and so does a call of [playerStand] during whose
    waits nothing else happens (the click, then firings of its timer
    alone). *)
Theorem stand_alone_keeps_busts (e : Els) (rnd : nat -> nat) st :
  reachable e rnd st ->
  (gameOver st = false ->
   exists p, calculateScore (playerHand st) = Int p /\ p <= 21) /\
  (forall st', startNewGame st = Ok tt st' -> busts st' = busts st) /\
  (forall (k : nat) st',
     standAlone k st = Ok 0%nat st' -> busts st' = busts st).
Proof.
  intros Hst. pose proof (reachable_Inv e rnd st Hst) as HI.
  split_and!.
  - by apply (reachable_player_score e rnd).
  - intros st' Hrun.
    destruct (startNewGame_state st)
      as (d' & rnd' & q & c1 & c2 & c3 & c4 & Hrun' & _).
    cbn zeta in Hrun'. rewrite Hrun' in Hrun.
    destruct (strictEq _ _) eqn:E; [|by simplify_eq].
    apply strictEq_Int in E.
    rewrite handleRoundEnd_state in Hrun. simpl_state in Hrun.
    assert (E1 : gt (calculateScore [c1; c3]) (Int 21) = false)
      by (by rewrite E).
    rewrite E1 in Hrun. simplify_eq. by repeat destruct (gt _ _).
  - intros k st' Hrun. apply playerStand_standAlone in Hrun.
    destruct (gameOver st) eqn:Hgo.
    { rewrite playerStand_over in Hrun by done. by simplify_eq. }
    destruct (reachable_player_score e rnd st Hst Hgo) as (p & Hp & Hle).
    destruct (playerStand_run k st st' Hgo (Inv_nonempty st HI) Hrun)
      as (sLoop & draws & Hdrew & _ & _ & _ & Hend).
    destruct Hdrew as (_ & _ & _ & Hph & _ & _ & _ & Hb).
    rewrite handleRoundEnd_state in Hend. rewrite Hph in Hend.
    assert (E1 : gt (calculateScore (playerHand st)) (Int 21) = false)
      by (rewrite Hp; apply Z.ltb_ge; lia).
    rewrite E1 in Hend. simplify_eq. by repeat destruct (gt _ _).
Qed.

(** X12. A call of a handler never lowers a counter, and raises the
    three of them together by at most one; [startNewGame] does not
    reset them. *)
Theorem counters_only_grow (ev : Call) st st' :
  deck st <> [] ->
  handler ev st = Ok tt st' ->
  (wins st <= wins st')%nat /\ (losses st <= losses st')%nat /\
  (busts st <= busts st')%nat /\
  (wins st' + losses st' + busts st'
   <= wins st + losses st + busts st + 1)%nat.
Proof.
  intros Hne Hrun. destruct ev as [| |fuel]; simpl in Hrun.
  - destruct (startNewGame_state st)
      as (d' & rnd' & q & c1 & c2 & c3 & c4 & Hrun' & _).
    cbn zeta in Hrun'. rewrite Hrun' in Hrun.
    destruct (strictEq _ _).
    + rewrite handleRoundEnd_state in Hrun. simplify_eq.
      repeat destruct (gt _ _); simpl; lia.
    + simplify_eq. simpl. lia.
  - destruct (gameOver st) eqn:Hgo.
    { rewrite playerHit_over in Hrun by done. simplify_eq. lia. }
    destruct (playerHit_state st Hgo Hne)
      as (d' & rnd' & q & c & Hrun' & _).
    cbn zeta in Hrun'. rewrite Hrun' in Hrun. simplify_eq.
    destruct (gt _ _); simpl; lia.
  - destruct (gameOver st) eqn:Hgo.
    { rewrite playerStand_over in Hrun by done. simplify_eq. lia. }
    destruct (playerStand_run fuel st st' Hgo Hne Hrun)
      as (sLoop & draws & Hdrew & _ & _ & _ & Hend).
    destruct Hdrew as (_ & _ & _ & _ & _ & Hw & Hl & Hb).
    rewrite handleRoundEnd_state in Hend. simplify_eq.
    repeat destruct (gt _ _); simpl; lia.
Qed.

(** X13. Once the round is over, calls of [playerHit] and
    [playerStand], in any number and order, leave the whole state as it
    is: no card is dealt, no counter changes, nothing is redrawn. *)
Theorem turn_calls_after_round (evs : list Call) st :
  gameOver st = true ->
  forallb isTurnCall evs = true ->
  calls evs st = Some st.
Proof.
  intros Hgo. induction evs as [|ev evs IH]; simpl; [done|].
  intros Hall. apply andb_true_iff in Hall as (Hev & Hall).
  destruct ev as [| |fuel]; [done | |]; simpl.
  - rewrite playerHit_over by done. by apply IH.
  - rewrite playerStand_over by done. by apply IH.
Qed.

(** X14. When a call of [playerStand] during whose waits nothing else
    happens on the page (the click, then firings of its timer alone,
    until the call has ended) has made the dealer draw, the dealer's
    final score is between 17 and 26. *)
Theorem dealer_final_score st (k : nat) st' :
  gameOver st = false ->
  deck st <> [] ->
  Forall deckCard (deck st) ->
  Forall deckCard (dealerHand st) ->
  standAlone k st = Ok 0%nat st' ->
  (length (dealerHand st) < length (dealerHand st'))%nat ->
  exists d, calculateScore (dealerHand st') = Int d /\ 17 <= d <= 26.
Proof.
  intros Hgo Hne Hdeck Hhand Hrun Hdrawn.
  apply playerStand_standAlone in Hrun.
  destruct (playerStand_run k st st' Hgo Hne Hrun)
    as (sLoop & draws & Hdrew & Hin & Hpre & Hfin & Hend).
  destruct Hdrew as (_ & _ & Hh & _).
  destruct (handleRoundEnd_frame sLoop)
    as (st'' & Hend' & _ & _ & _ & _ & Hh' & _).
  rewrite Hend in Hend'. simplify_eq.
  rewrite Hh', Hh in *. rewrite length_app in Hdrawn.
  assert (Hdraws : Forall deckCard draws).
  { eapply Forall_impl; [exact Hin|]. intros c Hc.
    exact (proj1 (Forall_forall _ _) Hdeck c Hc). }
  destruct (decide (draws = [])) as [->|Hnil]; [simpl in Hdrawn; lia|].
  destruct (exists_last Hnil) as (front & c & ->).
  apply Forall_app in Hdraws as (Hfront & Hc).
  apply Forall_cons in Hc as (Hc & _).
  specialize (Hpre (length front)).
  rewrite length_app, take_app_length in Hpre. simpl in Hpre.
  specialize (Hpre ltac:(lia)).
  assert (Hh0 : Forall deckCard (dealerHand st ++ front))
    by (by apply Forall_app).
  destruct (calculateScore_Int _ Hh0) as (s & Hs & _).
  rewrite Hs in Hpre. apply Z.ltb_lt in Hpre.
  destruct (calculateScore_snoc _ c s Hh0 Hc Hs) as (d & Hd & Hb & _).
  rewrite <- app_assoc in Hd. exists d. split; [done|].
  rewrite Hd in Hfin. apply Z.ltb_ge in Hfin. lia.
Qed.

End Rounds.

(** ** The page at work *)

Section Running.

Local Open Scope Z_scope.
Implicit Types (st : State).

Lemma pageLoad_Inv (e : Els) (rnd : nat -> nat) st :
  pageLoad (emptyState e rnd) = Ok tt st -> Inv st.
Proof.
  unfold pageLoad. unfold mbind at 1, M_bind at 1.
  destruct (loadScript (emptyState e rnd)) as [[] s| |] eqn:E; [|done..].
  intros Hrun. apply (startNewGame_Inv s); [|done].
  by apply (loadScript_Inv e rnd).
Qed.

(** A call of [playerStand] up to its first wait. *)
Lemma playerStandCall_run st :
  Inv st ->
  exists suspended st',
    playerStandCall st = Ok suspended st' /\ Inv st' /\
    playerHand st' = playerHand st /\ dealerHand st' = dealerHand st /\
    (suspended = true -> gameOver st' = false).
Proof.
  intros HI. unfold playerStandCall.
  unfold mbind at 1, M_bind at 1, get at 1.
  destruct (gameOver st) eqn:Hgo; [by exists false, st|].
  unfold mbind at 1, M_bind at 1, renderTable, modify.
  unfold mbind at 1, M_bind at 1, get at 1.
  match goal with |- context [lt (calculateScore (dealerHand ?s))] =>
    set (s0 := s)
  end.
  assert (HI0 : Inv s0) by exact HI.
  assert (Hgo0 : gameOver s0 = false) by exact Hgo.
  assert (Hph0 : playerHand s0 = playerHand st) by reflexivity.
  assert (Hdh0 : dealerHand s0 = dealerHand st) by reflexivity.
  clearbody s0.
  destruct (lt _ _); [by exists true, s0|].
  unfold mbind, M_bind, mret, M_ret.
  destruct (handleRoundEnd_frame s0)
    as (s1 & Hend & _ & _ & _ & Hph1 & Hdh1 & _).
  rewrite Hend. exists false, s1. split_and!; [done | | congruence..| done].
  by apply (handleRoundEnd_Inv s0).
Qed.

(** A suspended call of [playerStand] from its timer to its next
    wait: one card goes from the deck to the dealer's hand. *)
Lemma playerStandResume_run st :
  Inv st ->
  exists suspended st' c,
    playerStandResume st = Ok suspended st' /\ Inv st' /\
    playerHand st' = playerHand st /\
    dealerHand st' = dealerHand st ++ [c] /\ c ∈ deck st /\
    (suspended = true ->
     lt (calculateScore (dealerHand st')) (Int 17) = true /\
     gameOver st' = gameOver st) /\
    (suspended = false -> gameOver st' = true).
Proof.
  intros HI. unfold playerStandResume.
  destruct (dealerDraw_spec st (Inv_nonempty st HI))
    as (s0 & c & Hdraw & Hdrew & Hc).
  unfold mbind at 1, M_bind at 1. rewrite Hdraw.
  pose proof (Inv_deck_cards st HI) as Hdeck.
  destruct HI as (Hp & Hi & Hph & Hdh).
  destruct Hdrew as (Hp0 & Hi0 & Hdh0 & Hph0 & Hgo0 & _).
  assert (HI0 : Inv s0).
  { unfold Inv. rewrite Hph0, Hdh0. split_and!; try done.
    - by rewrite Hp0.
    - by apply Hi0.
    - apply Forall_app. split; [done|]. apply Forall_cons_2; [|done].
      exact (proj1 (Forall_forall _ _) Hdeck c Hc). }
  rewrite <- Hdh0.
  destruct (lt _ _) eqn:E; [by exists true, s0, c|].
  unfold mbind, M_bind, mret, M_ret.
  destruct (handleRoundEnd_frame s0)
    as (s1 & Hend & Hgo1 & _ & _ & Hph1 & Hdh1 & _).
  rewrite Hend. exists false, s1, c.
  split_and!; [done | | congruence.. | done | done | done].
  by apply (handleRoundEnd_Inv s0).
Qed.

(** Every event runs to its next wait or to its end, and keeps the
    invariant. *)
Lemma onEvent_run (ev : Event) (waiting : nat) st :
  Inv st ->
  exists waiting' st', onEvent ev waiting st = Ok waiting' st' /\ Inv st'.
Proof.
  intros HI. destruct ev; cbn [onEvent]; unfold mbind, M_bind, mret, M_ret.
  - destruct (startNewGame_state st)
      as (d' & rnd' & p & c1 & c2 & c3 & c4 & Hrun & _).
    cbn zeta in Hrun.
    assert (Hfin : exists st', startNewGame st = Ok tt st').
    { rewrite Hrun. destruct (strictEq _ _); [|by eexists].
      rewrite handleRoundEnd_state. by eexists. }
    destruct Hfin as (st' & Hfin). rewrite Hfin. exists waiting, st'.
    split; [done|]. by apply (startNewGame_Inv st).
  - assert (Hfin : exists st', playerHit st = Ok tt st').
    { destruct (gameOver st) eqn:Hgo.
      - exists st. by apply playerHit_over.
      - destruct (playerHit_run st Hgo (Inv_nonempty st HI))
          as (st' & c & Hrun & _). by exists st'. }
    destruct Hfin as (st' & Hfin). rewrite Hfin. exists waiting, st'.
    split; [done|]. by apply (playerHit_Inv st).
  - destruct (playerStandCall_run st HI) as (b & st' & -> & HI' & _).
    by eexists _, st'.
  - destruct waiting as [|others]; [by exists 0%nat, st|].
    destruct (playerStandResume_run st HI) as (b & st' & c & -> & HI' & _).
    by eexists _, st'.
Qed.

Lemma running_Inv (e : Els) (rnd : nat -> nat) (waiting : nat) st :
  running e rnd waiting st -> Inv st.
Proof.
  induction 1 as [st Hload | ev n st n' st' _ IH _ Hrun].
  - by apply (pageLoad_Inv e rnd).
  - destruct (onEvent_run ev n st IH) as (n'' & st'' & Hrun' & HI).
    rewrite Hrun in Hrun'. by simplify_eq.
Qed.

Lemma events_running (e : Els) (rnd : nat -> nat) (evs : list Event)
    (waiting : nat) st (waiting' : nat) st' :
  running e rnd waiting st ->
  canHappenAll evs waiting st = true ->
  events evs waiting st = Ok waiting' st' ->
  running e rnd waiting' st'.
Proof.
  revert waiting st. induction evs as [|ev evs IH]; intros n st Hst.
  - intros _ [= <- <-]. done.
  - cbn [canHappenAll events]. unfold mbind, M_bind.
    intros Hcan Hrun. apply andb_true_iff in Hcan as (Hcan & Hall).
    destruct (onEvent ev n st) as [n1 s1| |] eqn:E; [|done..].
    apply (IH n1 s1); [|done..].
    by apply (running_event e rnd ev n st).
Qed.

(** X22. However clicks on enabled buttons and firings of the timers
    of suspended calls of [playerStand] follow one another on the page,
    the deck is a permutation of the 52 created cards with [deckIndex]
    at most 52, both hands hold cards of the deck, and whatever happens
    next does not fail: the click or the resumed call runs to its next
    wait or to its end, so [dealCard] never hands out [undefined]. *)
Theorem running_events_finish (e : Els) (rnd : nat -> nat)
    (waiting : nat) st :
  running e rnd waiting st ->
  Inv st /\
  forall ev, exists waiting' st', onEvent ev waiting st = Ok waiting' st'.
Proof.
  intros Hst. pose proof (running_Inv e rnd waiting st Hst) as HI.
  split; [done|]. intros ev.
  destruct (onEvent_run ev waiting st HI) as (n' & st' & Hrun & _).
  by exists n', st'.
Qed.

End Running.

(** ** Dealing in the reachable states *)

Section MoreDealing.

Implicit Types (st : State).

Lemma createDeck_cards_NoDup : NoDup createDeck_cards.
Proof. apply (bool_decide_unpack _). by vm_compute. Qed.

(** X15. In a reachable state the deck holds no card twice, so a
    deal of four that does not run past the end of the deck leaves the
    deck as it is and gives the two hands four different cards. *)
Theorem fresh_deal_distinct (e : Els) (rnd : nat -> nat) st st' :
  reachable e rnd st ->
  deckIndex st + 4 <= 52 ->
  startNewGame st = Ok tt st' ->
  NoDup (deck st) /\
  deck st' = deck st /\
  NoDup (playerHand st' ++ dealerHand st').
Proof.
  intros Hst Hroom Hrun.
  pose proof (reachable_Inv e rnd st Hst) as HI.
  pose proof (Inv_length st HI) as Hlen.
  assert (Hnd : NoDup (deck st)).
  { destruct HI as (Hp & _). rewrite Hp. apply createDeck_cards_NoDup. }
  destruct (startNewGame_deals st Hlen ltac:(lia))
    as (sMid & c1 & c2 & c3 & c4 & Hrun' & Hph & Hdh & _ & Hsame & Hpos & _).
  assert (Hk : forall i c, [c1; c2; c3; c4] !! i = Some c ->
                 deck st !! (deckIndex st + i) = Some c).
  { intros i c Hi. pose proof (lookup_lt_Some _ _ _ Hi) as Hi4.
    simpl in Hi4. specialize (Hpos i c Hi).
    rewrite Nat.mod_small in Hpos by lia.
    destruct (Nat.ltb_spec (deckIndex st + i) 52); [done | lia]. }
  assert (Hhands : playerHand st' = [c1; c3] /\ dealerHand st' = [c2; c4]
                   /\ deck st' = deck st).
  { rewrite Hrun' in Hrun. destruct (strictEq _ _).
    - destruct (handleRoundEnd_frame sMid)
        as (s' & Hs' & _ & Hd' & _ & Hp' & Hh' & _).
      rewrite Hrun in Hs'. simplify_eq.
      rewrite Hp', Hh', Hd'. auto.
    - simplify_eq. auto. }
  destruct Hhands as (-> & -> & ->). split_and!; [done..|].
  pose proof (Hk 0 c1 eq_refl) as H1. pose proof (Hk 1 c2 eq_refl) as H2.
  pose proof (Hk 2 c3 eq_refl) as H3. pose proof (Hk 3 c4 eq_refl) as H4.
  assert (Hne : forall i j a b,
            deck st !! i = Some a -> deck st !! j = Some b ->
            i <> j -> a <> b).
  { intros i j a b Hi Hj Hij ->. apply Hij.
    by apply (NoDup_lookup (deck st) i j b). }
  simpl. repeat constructor; set_unfold; intros Hin;
    repeat destruct Hin as [Hin | Hin]; try done;
    first [ by eapply (Hne _ _ _ _ H1 H2); [lia|]
          | by eapply (Hne _ _ _ _ H1 H3); [lia|]
          | by eapply (Hne _ _ _ _ H1 H4); [lia|]
          | by eapply (Hne _ _ _ _ H3 H2); [lia|]
          | by eapply (Hne _ _ _ _ H3 H4); [lia|]
          | by eapply (Hne _ _ _ _ H2 H4); [lia|] ].
Qed.

(** X16. [startNewGame] finishes from every state, with two cards
    in each hand.  When there is no deck it first makes the 52 cards
    and shuffles them; otherwise it deals from the deck there is. *)
Theorem startNewGame_always_deals st :
  exists st',
    startNewGame st = Ok tt st' /\
    length (playerHand st') = 2 /\ length (dealerHand st') = 2 /\
    deck st' ≡ₚ (if decide (deck st = []) then createDeck_cards
                 else deck st) /\
    Forall (fun c => c ∈ deck st') (playerHand st' ++ dealerHand st').
Proof.
  destruct (startNewGame_state st)
    as (d' & rnd' & p & c1 & c2 & c3 & c4 & Hrun & Hp & Hin & _).
  cbn zeta in Hrun. rewrite Hrun.
  assert (Hin' : Forall (fun c => c ∈ d') ([c1; c3] ++ [c2; c4])).
  { apply Forall_cons in Hin as (? & Hin).
    apply Forall_cons in Hin as (? & Hin).
    apply Forall_cons in Hin as (? & Hin).
    apply Forall_cons in Hin as (? & _).
    simpl. by repeat apply Forall_cons_2. }
  destruct (strictEq _ _).
  - rewrite handleRoundEnd_state. eexists. split; [reflexivity|].
    by repeat destruct (gt _ _).
  - eexists. split; [reflexivity|]. done.
Qed.

End MoreDealing.

(** ** Announcing the outcome *)

Section Announcement.

Implicit Types (st : State).

Lemma roundEnded_announcement (w l b : nat) st :
  forall text color sound,
    (text, color, sound)
      ∈ [("BUST! You lose.", "#ff4444", "lose");
         ("Dealer BUSTS! You Win!", "#4CAF50", "win");
         ("You Win!", "#4CAF50", "win");
         ("Dealer Wins.", "#ff4444", "lose");
         ("Push (Tie).", "#fff", "chip")] ->
    let st' := roundEnded text color sound w l b st in
    exists o,
      announced (els_msgText (els st')) = Some o /\
      els_msgText_color (els st') = outcomeColor o /\
      last (sounds st') = Some (outcomeSound o) /\
      els_msgOverlay_show (els st') = true.
Proof.
  intros text color sound Hin. set_unfold.
  destruct Hin as [Hin|[Hin|[Hin|[Hin|[Hin|[]]]]]];
    simplify_eq; eexists;
    (split; [reflexivity|]); simpl; by rewrite last_snoc.
Qed.

(** X17. However a call ends the round (a bust on a hit, the
    dealer's turn after a stand, or a player score of 21 on the deal),
    the message, its colour and the sound agree: a win is green with
    the win sound, a loss red with the lose sound, a push white with
    the chip sound; and the message overlay is shown. *)
Theorem round_end_announcement (ev : Call) st st' :
  deck st <> [] ->
  (isTurnCall ev = true -> gameOver st = false) ->
  handler ev st = Ok tt st' ->
  gameOver st' = true ->
  exists o,
    announced (els_msgText (els st')) = Some o /\
    els_msgText_color (els st') = outcomeColor o /\
    last (sounds st') = Some (outcomeSound o) /\
    els_msgOverlay_show (els st') = true.
Proof.
  intros Hne Hon Hrun Hover. destruct ev as [| |fuel]; simpl in Hrun.
  - destruct (startNewGame_state st)
      as (d' & rnd' & p & c1 & c2 & c3 & c4 & Hrun' & _).
    cbn zeta in Hrun'. rewrite Hrun' in Hrun.
    destruct (strictEq _ _); [|by simplify_eq].
    rewrite handleRoundEnd_state in Hrun. simplify_eq.
    repeat destruct (gt _ _); apply roundEnded_announcement; set_solver.
  - specialize (Hon eq_refl).
    destruct (playerHit_state st Hon Hne)
      as (d' & rnd' & p & c & Hrun' & _).
    cbn zeta in Hrun'. rewrite Hrun' in Hrun. simplify_eq.
    destruct (gt _ _); [|done].
    apply roundEnded_announcement; set_solver.
  - specialize (Hon eq_refl).
    destruct (playerStand_run fuel st st' Hon Hne Hrun)
      as (sLoop & draws & _ & _ & _ & _ & Hend).
    rewrite handleRoundEnd_state in Hend. simplify_eq.
    repeat destruct (gt _ _); apply roundEnded_announcement; set_solver.
Qed.

End Announcement.

(** ** The sprite cell of a card *)

Section SpriteCell.

Lemma indexMap_lookup (l : list string) (k : string) (i : nat) :
  NoDup l ->
  (list_to_map (zip l (seq 0 (length l))) : gmap string nat) !! k = Some i
  <-> l !! i = Some k.
Proof.
  intros Hnd. rewrite <- elem_of_list_to_map.
  - rewrite list_elem_of_lookup. split.
    + intros [n Hn]. apply lookup_zip_with_Some in Hn
        as (x & y & [= <- <-] & Hx & Hy).
      apply lookup_seq in Hy as (-> & _). done.
    + intros Hi. exists i. apply lookup_zip_with_Some.
      exists k, i. split_and!; [done..|].
      apply lookup_seq. split; [done|]. by apply lookup_lt_Some in Hi.
  - rewrite fst_zip; [done|]. by rewrite length_seq.
Qed.

(** The entries of [ranksMap] and of [suitsMap]. *)
Lemma ranksMap_lookup (r : string) (i : nat) :
  ranksMap !! r = Some i <-> ranks !! i = Some r.
Proof.
  apply (indexMap_lookup ranks).
  apply (bool_decide_unpack _). by vm_compute.
Qed.

Lemma suitsMap_lookup (s : string) (j : nat) :
  suitsMap !! s = Some j <-> suits !! j = Some s.
Proof.
  apply (indexMap_lookup suits).
  apply (bool_decide_unpack _). by vm_compute.
Qed.

Lemma deckCard_suit (c : Card) : deckCard c -> suit c ∈ suits.
Proof.
  assert (H : Forall (fun c => suit c ∈ suits) createDeck_cards).
  { vm_compute createDeck_cards.
    repeat (constructor; [by apply (bool_decide_unpack _) |]).
    constructor. }
  intros Hc. exact (proj1 (Forall_forall _ _) H c Hc).
Qed.

(** X18. [ranksMap] holds each rank of the array [ranks] at its index
    in the array, and [suitsMap] each suit of [suits] at its index.
    Hence [createCardEl] places every deck card on the sprite cell
    whose column and row are the indices of its rank and suit, and no
    two deck cards on the same cell. *)
Theorem createCardEl_cell :
  (forall i r, ranks !! i = Some r -> ranksMap !! r = Some i) /\
  (forall j s, suits !! j = Some s -> suitsMap !! s = Some j) /\
  (forall c, deckCard c ->
     exists col row,
       createCardEl c false = cardFace (Some col) (Some row) /\
       ranks !! col = Some (rank c) /\ suits !! row = Some (suit c)) /\
  (forall c1 c2, deckCard c1 -> deckCard c2 ->
     createCardEl c1 false = createCardEl c2 false -> c1 = c2).
Proof.
  assert (Hcell : forall c, deckCard c ->
    exists col row,
      createCardEl c false = cardFace (Some col) (Some row) /\
      ranks !! col = Some (rank c) /\ suits !! row = Some (suit c)).
  { intros c Hc.
    destruct (proj1 (list_elem_of_lookup _ _) (deckCard_rank c Hc))
      as [col Hcol].
    destruct (proj1 (list_elem_of_lookup _ _) (deckCard_suit c Hc))
      as [row Hrow].
    exists col, row. unfold createCardEl.
    apply ranksMap_lookup in Hcol as Hc'.
    apply suitsMap_lookup in Hrow as Hr'.
    by rewrite Hc', Hr'. }
  split_and!; [intros i r; apply ranksMap_lookup
              | intros j s; apply suitsMap_lookup | done |].
  intros c1 c2 H1 H2 Heq.
  destruct (Hcell c1 H1) as (col1 & row1 & E1 & Hr1 & Hs1).
  destruct (Hcell c2 H2) as (col2 & row2 & E2 & Hr2 & Hs2).
  rewrite E1, E2 in Heq. simplify_eq.
  pose proof (deckCard_value c1 H1) as Hv1.
  pose proof (deckCard_value c2 H2) as Hv2.
  destruct c1 as [r1 s1 v1], c2 as [r2 s2 v2]. simpl in *.
  congruence.
Qed.

End SpriteCell.

(** ** The sprite sheet *)

Section SpriteSheet.

Import Sprite.

Lemma cellShowsCard_deck : forallb cellShowsCard createDeck_cards = true.
Proof. vm_compute. reflexivity. Qed.

(** X19. The sprite sheet agrees with [createCardEl]: for every
    deck card, the cell of the sheet that [createCardEl] selects holds
    the white card with its border, the card's own rank and suit in the
    corner and its suit in the middle (red for hearts and diamonds),
    the faint letter for J, Q and K, and nothing else. *)
Theorem sprite_cell_shows_card (c : Card) :
  deckCard c ->
  exists col row,
    createCardEl c false = cardFace (Some col) (Some row) /\
    cellPaints col row = faceOf (rank c) (suit c) col row.
Proof.
  intros Hc. pose proof cellShowsCard_deck as Hall.
  rewrite forallb_forall in Hall.
  specialize (Hall c (proj1 (list_elem_of_In _ _) Hc)).
  unfold cellShowsCard in Hall.
  destruct (createCardEl c false) as [|[col|] [row|]]; try done.
  exists col, row. split; [done|]. by apply bool_decide_eq_true in Hall.
Qed.

Lemma withinOneCell_all :
  forallb withinOneCell (painted generateSprite) = true.
Proof. vm_compute. reflexivity. Qed.

(** X20. [generateSprite] sizes the canvas to 13 by 5 cells of 80 by
    112 and paints nothing outside it or across a cell border: every
    rectangle, circle and text anchor lies inside one cell of the grid.
    It leaves [globalAlpha] at 1.0. *)
Theorem sprite_paints_within_cells :
  width generateSprite = (13 * cardW)%Z /\
  height generateSprite = (5 * cardH)%Z /\
  globalAlpha generateSprite = alpha_1_0 /\
  forall p, p ∈ painted generateSprite ->
    exists col row : nat,
      col < 13 /\ row < 5 /\ inCell col row p = true.
Proof.
  split_and!; [by vm_compute..|].
  intros p Hp. pose proof withinOneCell_all as Hall.
  rewrite forallb_forall in Hall.
  specialize (Hall p (proj1 (list_elem_of_In _ _) Hp)).
  unfold withinOneCell in Hall. destruct (extent p) as [[[x0 y0] x1] y1] eqn:E.
  apply andb_true_iff in Hall as (Hall & Hrow).
  apply andb_true_iff in Hall as (Hcell & Hcol).
  apply Nat.ltb_lt in Hrow, Hcol. eauto.
Qed.

End SpriteSheet.

(** ** Worked instances of the further properties *)

Section MoreInstances.

Local Open Scope Z_scope.

Lemma sampleLoaded_reachable :
  reachable samplePage sampleRandom sampleLoaded.
Proof. apply reach_load. vm_compute. reflexivity. Qed.

Lemma sampleDealt_run : startNewGame sampleLoaded = Ok tt sampleDealt.
Proof.
  unfold sampleDealt.
  destruct (startNewGame sampleLoaded) as [[] s| |] eqn:E;
    [reflexivity | vm_compute in E; discriminate E..].
Qed.

Lemma sampleHit_run : playerHit sampleDealt = Ok tt sampleHit.
Proof.
  unfold sampleHit.
  destruct (playerHit sampleDealt) as [[] s| |] eqn:E;
    [reflexivity | vm_compute in E; discriminate E..].
Qed.

Lemma sampleStood_run : playerStand 17 sampleDealt = Ok tt sampleStood.
Proof.
  unfold sampleStood.
  destruct (playerStand 17 sampleDealt) as [[] s| |] eqn:E;
    [reflexivity | vm_compute in E; discriminate E..].
Qed.

Lemma sampleDealt_reachable :
  reachable samplePage sampleRandom sampleDealt.
Proof.
  apply (reach_call _ _ callStartNewGame sampleLoaded).
  - exact sampleLoaded_reachable.
  - exact sampleDealt_run.
Qed.

Lemma sampleHand_deckCards : Forall deckCard sampleHand.
Proof. apply deckCards_check. vm_compute. reflexivity. Qed.

Lemma sampleAce_deckCard : deckCard sampleAce.
Proof. apply deckCardb_spec. vm_compute. reflexivity. Qed.

Lemma sampleKing_deckCard : deckCard sampleKing.
Proof. apply deckCardb_spec. vm_compute. reflexivity. Qed.

Lemma calculateScore_Permutation_witness :
  Forall deckCard sampleHand /\
  sampleHand ≡ₚ reverse sampleHand /\
  calculateScore sampleHand = calculateScore (reverse sampleHand).
Proof.
  pose proof sampleHand_deckCards as H1.
  assert (H2 : sampleHand ≡ₚ reverse sampleHand)
    by (symmetry; apply reverse_Permutation).
  split_and!; [exact H1 | exact H2 |].
  exact (calculateScore_Permutation sampleHand (reverse sampleHand) H1 H2).
Defined.

Lemma bust_iff_hardTotal_witness :
  Forall deckCard sampleHand /\
  exists s : Z,
    calculateScore sampleHand = Int s /\
    (s > 21 <-> hardTotal sampleHand > 21).
Proof.
  pose proof sampleHand_deckCards as H1.
  split; [exact H1 | exact (bust_iff_hardTotal sampleHand H1)].
Defined.

Lemma hit_on_eleven_is_safe_witness :
  Forall deckCard (playerHand sampleDealt) /\
  deckCard sampleAce /\
  calculateScore (playerHand sampleDealt) = Int 6 /\
  6 <= 11 /\
  exists s',
    calculateScore (playerHand sampleDealt ++ [sampleAce]) = Int s' /\
    s' <= 21.
Proof.
  pose proof sampleDealt_Inv as (_ & _ & H1 & _).
  pose proof sampleAce_deckCard as H2.
  assert (H3 : calculateScore (playerHand sampleDealt) = Int 6)
    by (vm_compute; reflexivity).
  assert (H4 : 6 <= 11) by lia.
  split_and!; [exact H1 | exact H2 | exact H3 | exact H4 |].
  exact (hit_on_eleven_is_safe (playerHand sampleDealt) sampleAce 6
           H1 H2 H3 H4).
Defined.

Lemma natural_twenty_one_witness :
  deckCard sampleAce /\ deckCard sampleKing /\
  (calculateScore [sampleAce; sampleKing] = Int 21 <->
   (isAce sampleAce = true /\ tenValued (rank sampleKing) = true) \/
   (isAce sampleKing = true /\ tenValued (rank sampleAce) = true)).
Proof.
  pose proof sampleAce_deckCard as H1.
  pose proof sampleKing_deckCard as H2.
  split_and!; [exact H1 | exact H2 |].
  exact (natural_twenty_one sampleAce sampleKing H1 H2).
Defined.

Lemma shuffleDeck_reaches_witness :
  reverse (deck sampleLoaded) ≡ₚ deck sampleLoaded /\
  exists js,
    length js = (length (deck sampleLoaded) - 1)%nat /\
    forall rnd,
      exists st',
        shuffleDeck
          (set_Math_random (fun _ => prepend js rnd) sampleLoaded)
        = Ok tt st' /\
        deck st' = reverse (deck sampleLoaded) /\ deckIndex st' = 0%nat.
Proof.
  assert (H1 : reverse (deck sampleLoaded) ≡ₚ deck sampleLoaded)
    by apply reverse_Permutation.
  split; [exact H1|].
  exact (shuffleDeck_reaches sampleLoaded (reverse (deck sampleLoaded)) H1).
Defined.

Lemma controls_follow_round_witness :
  reachable samplePage sampleRandom sampleDealt /\
  (controlsInSync sampleDealt \/
   (gameOver sampleDealt = false /\
    controls (els sampleDealt) = controls samplePage)).
Proof.
  pose proof sampleDealt_reachable as H1.
  split; [exact H1|].
  exact (controls_follow_round samplePage sampleRandom sampleDealt H1).
Defined.

Lemma stats_shown_are_current_witness :
  reachable samplePage sampleRandom sampleDealt /\
  (statsInSync sampleDealt \/
   (wins sampleDealt = 0%nat /\ losses sampleDealt = 0%nat /\
    busts sampleDealt = 0%nat /\
    statsShown (els sampleDealt) = statsShown samplePage)).
Proof.
  pose proof sampleDealt_reachable as H1.
  split; [exact H1|].
  exact (stats_shown_are_current samplePage sampleRandom sampleDealt H1).
Defined.

Lemma table_shown_is_current_witness :
  reachable samplePage sampleRandom sampleDealt /\
  (tableInSync sampleDealt \/
   (playerHand sampleDealt = [] /\ dealerHand sampleDealt = [] /\
    gameOver sampleDealt = false /\
    tableShown (els sampleDealt) = tableShown samplePage)).
Proof.
  pose proof sampleDealt_reachable as H1.
  split; [exact H1|].
  exact (table_shown_is_current samplePage sampleRandom sampleDealt H1).
Defined.

Lemma reachable_calls_finish_witness :
  reachable samplePage sampleRandom sampleDealt /\
  (exists st', startNewGame sampleDealt = Ok tt st') /\
  (exists st', playerHit sampleDealt = Ok tt st') /\
  (forall k : nat, (17 <= k)%nat ->
     exists st', standAlone k sampleDealt = Ok 0%nat st').
Proof.
  pose proof sampleDealt_reachable as H1.
  split; [exact H1|].
  exact (reachable_calls_finish samplePage sampleRandom sampleDealt H1).
Defined.

Lemma stand_alone_keeps_busts_witness :
  reachable samplePage sampleRandom sampleDealt /\
  (gameOver sampleDealt = false ->
   exists p, calculateScore (playerHand sampleDealt) = Int p /\ p <= 21) /\
  (forall st',
     startNewGame sampleDealt = Ok tt st' ->
     busts st' = busts sampleDealt) /\
  (forall (k : nat) st',
     standAlone k sampleDealt = Ok 0%nat st' ->
     busts st' = busts sampleDealt).
Proof.
  pose proof sampleDealt_reachable as H1.
  split; [exact H1|].
  exact (stand_alone_keeps_busts samplePage sampleRandom sampleDealt H1).
Defined.

Lemma counters_only_grow_witness :
  deck sampleDealt <> [] /\
  handler callPlayerHit sampleDealt = Ok tt sampleHit /\
  (wins sampleDealt <= wins sampleHit)%nat /\
  (losses sampleDealt <= losses sampleHit)%nat /\
  (busts sampleDealt <= busts sampleHit)%nat /\
  (wins sampleHit + losses sampleHit + busts sampleHit
   <= wins sampleDealt + losses sampleDealt + busts sampleDealt + 1)%nat.
Proof.
  pose proof sampleDealt_nonempty as H1.
  pose proof sampleHit_run as H2.
  split_and!; [exact H1 | exact H2 | ..];
    apply (counters_only_grow callPlayerHit sampleDealt sampleHit H1 H2).
Defined.

Lemma turn_calls_after_round_witness :
  gameOver sampleStood = true /\
  forallb isTurnCall [callPlayerHit; callPlayerStand 17; callPlayerHit]
  = true /\
  calls [callPlayerHit; callPlayerStand 17; callPlayerHit] sampleStood
  = Some sampleStood.
Proof.
  assert (H1 : gameOver sampleStood = true) by (vm_compute; reflexivity).
  assert (H2 : forallb isTurnCall
                 [callPlayerHit; callPlayerStand 17; callPlayerHit] = true)
    by reflexivity.
  split_and!; [exact H1 | exact H2 |].
  exact (turn_calls_after_round
           [callPlayerHit; callPlayerStand 17; callPlayerHit]
           sampleStood H1 H2).
Defined.

Lemma dealer_final_score_witness :
  gameOver sampleDealt = false /\
  deck sampleDealt <> [] /\
  Forall deckCard (deck sampleDealt) /\
  Forall deckCard (dealerHand sampleDealt) /\
  standAlone 2 sampleDealt = Ok 0%nat sampleStood /\
  (length (dealerHand sampleDealt) < length (dealerHand sampleStood))%nat /\
  exists d,
    calculateScore (dealerHand sampleStood) = Int d /\ 17 <= d <= 26.
Proof.
  pose proof sampleDealt_on as H1.
  pose proof sampleDealt_nonempty as H2.
  pose proof (Inv_deck_cards _ sampleDealt_Inv) as H3.
  pose proof sampleDealt_Inv as (_ & _ & _ & H4).
  assert (H5 : standAlone 2 sampleDealt = Ok 0%nat sampleStood)
    by (vm_compute; reflexivity).
  assert (H6 : (length (dealerHand sampleDealt)
                < length (dealerHand sampleStood))%nat)
    by (vm_compute; lia).
  split_and!; [exact H1 | exact H2 | exact H3 | exact H4 | exact H5
              | exact H6 |].
  exact (dealer_final_score sampleDealt 2 sampleStood H1 H2 H3 H4 H5 H6).
Defined.

Lemma sampleDealt_running : running samplePage sampleRandom 0 sampleDealt.
Proof. apply running_load. vm_compute. reflexivity. Qed.

Lemma sampleTwoStands_running :
  running samplePage sampleRandom 1 sampleTwoStands.
Proof.
  apply (events_running samplePage sampleRandom
           [clickStand; clickStand; timerFires; timerFires]
           0 sampleDealt).
  - exact sampleDealt_running.
  - vm_compute. reflexivity.
  - vm_compute. reflexivity.
Qed.

(** The sample game with one call of [playerStand] still suspended
    after another has ended the round. *)
Lemma running_events_finish_witness :
  running samplePage sampleRandom 1 sampleTwoStands /\
  Inv sampleTwoStands /\
  forall ev, exists waiting' st',
    onEvent ev 1 sampleTwoStands = Ok waiting' st'.
Proof.
  pose proof sampleTwoStands_running as H1.
  split; [exact H1|].
  exact (running_events_finish samplePage sampleRandom 1 sampleTwoStands H1).
Defined.

Lemma fresh_deal_distinct_witness :
  reachable samplePage sampleRandom sampleLoaded /\
  (deckIndex sampleLoaded + 4 <= 52)%nat /\
  startNewGame sampleLoaded = Ok tt sampleDealt /\
  NoDup (deck sampleLoaded) /\
  deck sampleDealt = deck sampleLoaded /\
  NoDup (playerHand sampleDealt ++ dealerHand sampleDealt).
Proof.
  pose proof sampleLoaded_reachable as H1.
  assert (H2 : (deckIndex sampleLoaded + 4 <= 52)%nat) by (vm_compute; lia).
  pose proof sampleDealt_run as H3.
  split_and!; [exact H1 | exact H2 | exact H3 | ..];
    apply (fresh_deal_distinct samplePage sampleRandom sampleLoaded
             sampleDealt H1 H2 H3).
Defined.

Lemma round_end_announcement_witness :
  deck sampleDealt <> [] /\
  (isTurnCall (callPlayerStand 17) = true -> gameOver sampleDealt = false) /\
  handler (callPlayerStand 17) sampleDealt = Ok tt sampleStood /\
  gameOver sampleStood = true /\
  exists o,
    announced (els_msgText (els sampleStood)) = Some o /\
    els_msgText_color (els sampleStood) = outcomeColor o /\
    last (sounds sampleStood) = Some (outcomeSound o) /\
    els_msgOverlay_show (els sampleStood) = true.
Proof.
  pose proof sampleDealt_nonempty as H1.
  assert (H2 : isTurnCall (callPlayerStand 17) = true ->
               gameOver sampleDealt = false)
    by (intros _; exact sampleDealt_on).
  pose proof sampleStood_run as H3.
  assert (H4 : gameOver sampleStood = true) by (vm_compute; reflexivity).
  split_and!; [exact H1 | exact H2 | exact H3 | exact H4 |].
  exact (round_end_announcement (callPlayerStand 17) sampleDealt sampleStood
           H1 H2 H3 H4).
Defined.

Lemma sprite_cell_shows_card_witness :
  deckCard sampleKing /\
  exists col row,
    createCardEl sampleKing false = cardFace (Some col) (Some row) /\
    Sprite.cellPaints col row
    = Sprite.faceOf (rank sampleKing) (suit sampleKing) col row.
Proof.
  pose proof sampleKing_deckCard as H1.
  split; [exact H1 | exact (sprite_cell_shows_card sampleKing H1)].
Defined.

End MoreInstances.
